(** * Navio: alignment of a transcription with a speaker diarization

    A shallow embedding of [server/utils/diarization_utils.py]: the two
    loops of [Diarization.map_transcription_to_diarization] (alignment of
    every transcription segment with the diarization segments, then the
    merge of adjacent segments of one speaker) and
    [Diarization.format_combined_segments]; and of
    [server/controllers/file_controller.py]: [FileController.get_files] and
    [FileController.process_file], with their collaborators (the search
    index, the media service, the library functions) as parameters.

    - Dictionaries with a fixed set of keys are records; the speaker labels
      and the texts are strings.
    - Timestamps are Python floats.  They are modelled as rationals [Q]:
      every finite float is a rational, [<] is exact on them, and [max] and
      [min] select one of their arguments, so that timestamps are copied,
      never recomputed.  The only arithmetic of the source is the
      subtraction of the soft-match test, which rounds its result as the
      floats do ([fsub]).
    - A [for] loop that appends to a list is a [fold_left] whose state is
      that list.  The calls of the logger have no effect on the result and
      are left out; the function is [async] but awaits nothing.
    - The merge loop assigns to dictionaries that two lists share.  It is
      modelled on values first ([merge]) and on a store of dictionaries
      second ([merge_store]); the two agree. *)

From Stdlib Require Import QArith Qabs Qpower ZArith String Ascii List Sorted Lia Lqa
  DecimalString DecimalN.
From stdpp Require Import base list.
Import ListNotations.

Local Open Scope string_scope.
Local Open Scope Q_scope.

(** ** Python's comparison, [max] and [min] on numbers *)

(** [a < b] *)
Definition Qltb (a b : Q) : bool :=
  (Qnum a * QDen b <? Qnum b * QDen a)%Z.

(** [max(a, b)]: the first argument unless the second is greater. *)
Definition py_max (a b : Q) : Q := if Qltb a b then b else a.

(** [min(a, b)]: the first argument unless the second is smaller. *)
Definition py_min (a b : Q) : Q := if Qltb b a then b else a.

(** The nearest integer, ties going to the even one. *)
Definition round_half_even (q : Q) : Z :=
  let n := Qnum q in
  let d := Zpos (Qden q) in
  let f := (n / d)%Z in
  match (2 * (n mod d) ?= d)%Z with
  | Lt => f
  | Gt => (f + 1)%Z
  | Eq => if Z.even f then f else (f + 1)%Z
  end.

(** ** The subtraction of two floats

    A float is a binary64 number.  The difference of two floats is the
    exact difference rounded to 53 significant bits, to the nearest, ties
    going to the even significand.  The exponent is not bounded here: the
    difference of two binary64 numbers is exact where binary64 is subnormal,
    and where binary64 overflows both results compare alike with every
    finite tolerance. *)

(** The binade of a positive number: [2^k <= x < 2^(k+1)]. *)
Definition ilog2 (x : Q) : Z :=
  let k := (Z.log2 (Qnum x) - Z.log2 (Zpos (Qden x)))%Z in
  if Qle_bool (2 ^ k) x then k else (k - 1)%Z.

(** A positive number rounded to 53 significant bits. *)
Definition round53_pos (x : Q) : Q :=
  let e := (ilog2 x - 52)%Z in
  inject_Z (round_half_even (x / 2 ^ e)) * 2 ^ e.

Definition round53 (x : Q) : Q :=
  if Qltb 0 x then round53_pos x
  else if Qltb x 0 then - round53_pos (- x)
  else 0.

(** [a - b] on floats. *)
Definition fsub (a b : Q) : Q := round53 (a - b).

(** The numbers with a significand of at most 53 bits: the floats, up to
    the range of the exponent. *)
Definition representable53 (x : Q) : Prop :=
  exists m e : Z, (Z.abs m < 2 ^ 53)%Z /\ x == inject_Z m * 2 ^ e.

(** ** The data model *)

(** A transcription segment: [{"start": _, "end": _, "text": _}]. *)
Record TransSegment := mkTrans {
  trans_start : Q;
  trans_end : Q;
  trans_text : string
}.

(** A diarization segment: [{"start": _, "end": _, "speaker": _}], as
    [perform_diarization] builds them. *)
Record DiaSegment := mkDia {
  dia_start : Q;
  dia_end : Q;
  dia_speaker : string
}.

(** A segment of the unified transcript, and of the merged one:
    [{"start": _, "end": _, "speaker": _, "text": _}]. *)
Record Segment := mkSeg {
  seg_start : Q;
  seg_end : Q;
  seg_speaker : string;
  seg_text : string
}.

Definition UNKNOWN : string := "UNKNOWN".

(** ** [map_transcription_to_diarization]: the alignment loop *)

(** The soft-match test of the list comprehension. *)
Definition soft_match (trans_start trans_end tolerance : Q) (dia : DiaSegment) : bool :=
  Qltb (fsub (py_max (dia_start dia) trans_start) (py_min (dia_end dia) trans_end))
       tolerance.

(** [overlapping_segments = [dia for dia in diarization if ...]] *)
Definition overlapping_segments (trans_start trans_end tolerance : Q)
    (diarization : list DiaSegment) : list DiaSegment :=
  List.filter (soft_match trans_start trans_end tolerance) diarization.

(** The segment appended when no diarization segment matches. *)
Definition unknown_segment (trans : TransSegment) : Segment :=
  {| seg_start := trans_start trans;
     seg_end := trans_end trans;
     seg_speaker := UNKNOWN;
     seg_text := trans_text trans |}.

(** The segment appended for a candidate with a true overlap. *)
Definition overlap_segment (trans : TransSegment) (dia : DiaSegment) : Segment :=
  {| seg_start := py_max (dia_start dia) (trans_start trans);
     seg_end := py_min (dia_end dia) (trans_end trans);
     seg_speaker := dia_speaker dia;
     seg_text := trans_text trans |}.

(** One iteration of [for dia in overlapping_segments]. *)
Definition overlap_step (trans : TransSegment)
    (unified_transcript : list Segment) (dia : DiaSegment) : list Segment :=
  let overlap_start := py_max (dia_start dia) (trans_start trans) in
  let overlap_end := py_min (dia_end dia) (trans_end trans) in
  if Qltb overlap_start overlap_end
  then unified_transcript ++ [overlap_segment trans dia]
  else unified_transcript.

(** One iteration of [for trans in transcription]. *)
Definition trans_step (diarization : list DiaSegment) (tolerance : Q)
    (unified_transcript : list Segment) (trans : TransSegment) : list Segment :=
  match overlapping_segments (trans_start trans) (trans_end trans) tolerance diarization with
  | [] => unified_transcript ++ [unknown_segment trans]
  | dia :: rest => fold_left (overlap_step trans) (dia :: rest) unified_transcript
  end.

(** [unified_transcript] when the first loop ends. *)
Definition unified_transcript (transcription : list TransSegment)
    (diarization : list DiaSegment) (tolerance : Q) : list Segment :=
  fold_left (trans_step diarization tolerance) transcription [].

(** ** [map_transcription_to_diarization]: the merge loop *)

(** [merged_transcript[-1]] after the two assignments of the first branch. *)
Definition extend (prev seg : Segment) : Segment :=
  {| seg_start := seg_start prev;
     seg_end := seg_end seg;
     seg_speaker := seg_speaker prev;
     seg_text := seg_text prev ++ (" " ++ seg_text seg) |}.

(** One iteration of [for seg in unified_transcript]. *)
Definition merge_step (merged_transcript : list Segment) (seg : Segment) : list Segment :=
  match last merged_transcript with
  | Some prev =>
      if String.eqb (seg_speaker seg) (seg_speaker prev)
      then removelast merged_transcript ++ [extend prev seg]
      else merged_transcript ++ [seg]
  | None => merged_transcript ++ [seg]
  end.

Definition merge (unified : list Segment) : list Segment :=
  fold_left merge_step unified [].

(** ** Outcomes of a call *)

(** The specification names one error of the core, [InvalidSpanError];
    the source defines no exception class and has no [raise]. *)
Inductive exception := InvalidSpanError.

Inductive outcome (A : Type) :=
  | Returned (value : A)
  | Raised (e : exception).
Arguments Returned {A} value.
Arguments Raised {A} e.

(** The whole function: both loops, then [return merged_transcript]. *)
Definition map_transcription_to_diarization (transcription : list TransSegment)
    (diarization : list DiaSegment) (tolerance : Q) : outcome (list Segment) :=
  Returned (merge (unified_transcript transcription diarization tolerance)).

(** ** [format_combined_segments] *)

Definition digit (z : Z) : ascii := ascii_of_nat (48 + Z.to_nat z).

Definition decimal (z : Z) : string :=
  NilZero.string_of_uint (N.to_uint (Z.to_N z)).

(** The format specification [:.2f]: a sign for a negative number, the
    integer part, a point and two digits, the value rounded to the nearest
    hundredth. *)
Definition format_2f (x : Q) : string :=
  let h := round_half_even (Qabs x * 100) in
  (if Qltb x 0 then "-" else "")
  ++ decimal (h / 100) ++ "."
  ++ String (digit ((h / 10) mod 10)) (String (digit (h mod 10)) "").

Definition newline : string := String (ascii_of_nat 10) "".

(** The f-string of the generator expression. *)
Definition format_segment (segment : Segment) : string :=
  "[" ++ format_2f (seg_start segment) ++ "-" ++ format_2f (seg_end segment)
  ++ "] " ++ seg_speaker segment ++ ": " ++ seg_text segment.

(** ["\n".join(... for segment in combined_segments)] *)
Definition format_combined_segments (combined_segments : list Segment) : string :=
  String.concat newline (List.map format_segment combined_segments).

(** ** Vocabulary of the properties *)

(** The invariant of a time span: [end >= start]. *)
Definition trans_valid (t : TransSegment) : Prop := trans_start t <= trans_end t.
Definition dia_valid (d : DiaSegment) : Prop := dia_start d <= dia_end d.
Definition seg_valid (s : Segment) : Prop := seg_start s <= seg_end s.

(** Chronological order of two segments: by their starts. *)
Definition starts_le (a b : Segment) : Prop := seg_start a <= seg_start b.

(** Decimal digits, and the strings made of them. *)
Definition is_digit (c : ascii) : bool :=
  (48 <=? nat_of_ascii c)%nat && (nat_of_ascii c <=? 57)%nat.

Fixpoint all_digits (s : string) : bool :=
  match s with
  | EmptyString => true
  | String c s' => is_digit c && all_digits s'
  end.

(** Reading a rendering of [:.2f] back: the value of a digit, and the
    number of hundredths that a string of digits, a point and two digits
    denotes, after an optional sign. *)
Definition digit_value (c : ascii) : Z := Z.of_nat (nat_of_ascii c) - 48.

Fixpoint read_hundredths (s : string) (acc : Z) : option Z :=
  match s with
  | EmptyString => None
  | String c rest =>
      if Ascii.eqb c "."
      then
        match rest with
        | String d1 (String d2 EmptyString) =>
            if is_digit d1 && is_digit d2
            then Some (100 * acc + 10 * digit_value d1 + digit_value d2)%Z
            else None
        | _ => None
        end
      else if is_digit c then read_hundredths rest (10 * acc + digit_value c)%Z
      else None
  end.

Definition read_2f (s : string) : option Z :=
  match s with
  | EmptyString => None
  | String c rest =>
      if Ascii.eqb c "-"
      then option_map Z.opp (read_hundredths rest 0)
      else read_hundredths s 0
  end.

(** The hard-overlap test of the inner loop. *)
Definition hard_overlap (trans : TransSegment) (dia : DiaSegment) : bool :=
  Qltb (py_max (dia_start dia) (trans_start trans))
       (py_min (dia_end dia) (trans_end trans)).

(** The candidates of [trans]: the list the comprehension builds for it. *)
Definition candidates (trans : TransSegment) (diarization : list DiaSegment)
    (tolerance : Q) : list DiaSegment :=
  overlapping_segments (trans_start trans) (trans_end trans) tolerance diarization.

(** What the iteration for [trans] appends to [unified_transcript]. *)
Definition segment_output (trans : TransSegment) (diarization : list DiaSegment)
    (tolerance : Q) : list Segment :=
  trans_step diarization tolerance [] trans.

(** What the branch of the overlaps appends for [trans]: the inner loop run
    over the candidates. *)
Definition overlap_output (trans : TransSegment) (diarization : list DiaSegment)
    (tolerance : Q) : list Segment :=
  fold_left (overlap_step trans) (candidates trans diarization tolerance) [].

(** The turn merger as the specification words it: one pass that keeps a
    current turn, extends it with a segment of the same speaker, and
    otherwise emits it and opens a new one; the open turn is emitted at the
    end of the input. *)
Fixpoint spec_merge_from (current : Segment) (attributed : list Segment) : list Segment :=
  match attributed with
  | [] => [current]
  | s :: rest =>
      if String.eqb (seg_speaker s) (seg_speaker current)
      then spec_merge_from (extend current s) rest
      else current :: spec_merge_from s rest
  end.

Definition spec_merge (attributed : list Segment) : list Segment :=
  match attributed with
  | [] => []
  | s :: rest => spec_merge_from s rest
  end.

(** The turn that a first segment and the run of segments merged into it
    make: the start of the first, the end of the last, the speaker of the
    first and the texts joined by spaces. *)
Definition turn_of (first : Segment) (run : list Segment) : Segment :=
  {| seg_start := seg_start first;
     seg_end := List.last (List.map seg_end run) (seg_end first);
     seg_speaker := seg_speaker first;
     seg_text := String.concat " " (seg_text first :: List.map seg_text run) |}.

(** No two neighbours of the list have the same speaker. *)
Fixpoint distinct_neighbours (l : list Segment) : Prop :=
  match l with
  | a :: tl =>
      match tl with
      | b :: _ => seg_speaker a <> seg_speaker b /\ distinct_neighbours tl
      | [] => True
      end
  | [] => True
  end.

(** A list of labels without the elements that repeat their predecessor. *)
Fixpoint squeeze (labels : list string) : list string :=
  match labels with
  | a :: tl =>
      match tl with
      | b :: _ => if String.eqb a b then squeeze tl else a :: squeeze tl
      | [] => [a]
      end
  | [] => []
  end.

(** ** The merge loop on the object store

    [merged_transcript.append(seg)] appends the dictionary that
    [unified_transcript] holds, not a copy of it, and the first branch of the
    loop assigns to the keys of that shared dictionary.  Here the
    dictionaries live in a store, a list indexed by references, and both
    Python lists hold references.  Every dictionary of
    [unified_transcript] is created by its own [append({...})] of the first
    loop, so the references of [unified_transcript] are [0], [1], ... in
    order. *)

Definition set_end (e : Q) (s : Segment) : Segment :=
  {| seg_start := seg_start s; seg_end := e;
     seg_speaker := seg_speaker s; seg_text := seg_text s |}.

Definition add_text (t : string) (s : Segment) : Segment :=
  {| seg_start := seg_start s; seg_end := seg_end s;
     seg_speaker := seg_speaker s; seg_text := seg_text s ++ t |}.

(** One iteration of [for seg in unified_transcript] on a store; [r] is the
    reference bound to [seg].  A dangling reference, which the loop never
    meets, leaves the state as it is. *)
Definition merge_step_store (st : list Segment * list nat) (r : nat)
    : list Segment * list nat :=
  let '(heap, merged_transcript) := st in
  match last merged_transcript with
  | Some p =>
      match heap !! r, heap !! p with
      | Some seg, Some prev =>
          if String.eqb (seg_speaker seg) (seg_speaker prev)
          then
            let heap1 := alter (set_end (seg_end seg)) p heap in
            match heap1 !! r with
            | Some seg1 =>
                (alter (add_text (" " ++ seg_text seg1)) p heap1, merged_transcript)
            | None => st
            end
          else (heap, (merged_transcript ++ [r])%list)
      | _, _ => st
      end
  | None => (heap, (merged_transcript ++ [r])%list)
  end.

(** The dictionaries a list of references denotes. *)
Definition deref (heap : list Segment) (refs : list nat) : list Segment :=
  omap (fun r => heap !! r) refs.

(** The second loop on the store that the first loop leaves, and the value
    of [merged_transcript] that the caller receives. *)
Definition merge_store (unified : list Segment) : list Segment :=
  let '(heap, merged_transcript) :=
    fold_left merge_step_store (seq 0 (length unified)) (unified, []) in
  deref heap merged_transcript.

(** The state of the loop on the store after the segments [done], with
    [todo] still to come: the dictionaries to come are untouched, the
    references of [merged_transcript] are distinct and point to
    dictionaries already visited, and they denote the turns that the loop on
    values has built. *)
Definition store_inv (done todo heap : list Segment) (merged_transcript : list nat) : Prop :=
  drop (length done) heap = todo
  /\ (length done <= length heap)%nat
  /\ Forall (fun r => (r < length done)%nat) merged_transcript
  /\ NoDup merged_transcript
  /\ deref heap merged_transcript = merge done.

(** ** Python values and exceptions, for [controllers/file_controller.py]

    The controller handles the responses of its collaborators, which are
    nested dictionaries and lists.  A dictionary is the list of its entries,
    with distinct keys; a lookup takes the first entry of the key. *)

#[warnings="-register-all"]
Inductive value :=
  | VNone
  | VBool (b : bool)
  | VNum (q : Q)
  | VStr (s : string)
  | VList (items : list value)
  | VDict (entries : list (string * value)).

(** The exceptions of the controller, all of them subclasses of
    [Exception]: those the interpreter raises on the values above, the
    [HTTPException] of the framework, and an exception of a collaborator. *)
Inductive pyexn :=
  | KeyError (key : string)
  | TypeError
  | UnboundLocalError (name : string)
  | HTTPException (status_code : Z) (detail : string)
  | ServiceError (message : string).

Inductive py_result (A : Type) :=
  | Val (a : A)
  | Exn (e : pyexn).
Arguments Val {A} a.
Arguments Exn {A} e.

Definition py_bind {A B : Type} (m : py_result A) (k : A -> py_result B) : py_result B :=
  match m with
  | Val a => k a
  | Exn e => Exn e
  end.

Notation "'let*' x ':=' m 'in' k" := (py_bind m (fun x => k))
  (at level 10, x name, m at level 100, k at level 200).

Fixpoint dict_get (entries : list (string * value)) (key : string) : option value :=
  match entries with
  | [] => None
  | (k, v) :: rest => if String.eqb k key then Some v else dict_get rest key
  end.

(** [d.get(key, default)] *)
Definition dict_get_default (entries : list (string * value)) (key : string)
    (default : value) : value :=
  match dict_get entries key with
  | Some v => v
  | None => default
  end.

(** [v[key]] for a string [key]: the entry of a dictionary, [KeyError] when
    the dictionary has no such key, [TypeError] for every other value. *)
Definition subscript (v : value) (key : string) : py_result value :=
  match v with
  | VDict entries =>
      match dict_get entries key with
      | Some x => Val x
      | None => Exn (KeyError key)
      end
  | _ => Exn TypeError
  end.

(** [v > 0]: numbers compare, [True] is [1] and [False] is [0]; every other
    value raises [TypeError]. *)
Definition gt_zero (v : value) : py_result bool :=
  match v with
  | VNum q => Val (Qltb 0 q)
  | VBool b => Val b
  | _ => Exn TypeError
  end.

(** [for x in v]: the items of a list, the keys of a dictionary, the
    characters of a string; the other values are not iterable. *)
Definition iterate (v : value) : py_result (list value) :=
  match v with
  | VList items => Val items
  | VDict entries => Val (List.map (fun kv => VStr (fst kv)) entries)
  | VStr s => Val (List.map (fun c => VStr (String c "")) (list_ascii_of_string s))
  | _ => Exn TypeError
  end.

(** ** [FileController.get_files] *)

(** [{"filename": _, "file_id": _}] *)
Record FileEntry := mkFileEntry {
  fe_filename : value;
  fe_file_id : value
}.

(** The body of [for hit in response['hits']['hits']]. *)
Definition hit_entry (hit : value) : py_result FileEntry :=
  let* file_data := subscript hit "_source" in
  let* filename := subscript file_data "filename" in
  let* file_id := subscript file_data "file_id" in
  Val {| fe_filename := filename; fe_file_id := file_id |}.

Fixpoint files_loop (hits : list value) (files : list FileEntry)
    : py_result (list FileEntry) :=
  match hits with
  | [] => Val files
  | hit :: rest =>
      let* entry := hit_entry hit in
      files_loop rest (files ++ [entry])%list
  end.

(** The [try] block; [es_search index] is the outcome of
    [await self.elastic_service.es.search(index=index, body=query)] for the
    constant [match_all] query. *)
Definition get_files_try (es_search : string -> py_result value)
    (workspace_name : string) : py_result (list FileEntry) :=
  let* response := es_search workspace_name in
  let* hits := subscript response "hits" in
  let* total := subscript hits "total" in
  let* total_value := subscript total "value" in
  let* positive := gt_zero total_value in
  if positive
  then
    let* hits' := subscript response "hits" in
    let* hit_list := subscript hits' "hits" in
    let* items := iterate hit_list in
    files_loop items []
  else Val [].

(** [get_files]: what the [try] block returns, and [[]] from the handler
    of [except Exception]. *)
Definition get_files (es_search : string -> py_result value)
    (workspace_name : string) : list FileEntry :=
  match get_files_try es_search workspace_name with
  | Val files => files
  | Exn _ => []
  end.

(** ** [FileController.process_file] *)

(** An uploaded file, as far as the controller reads it: [file.filename]. *)
Record UploadFile := mkUpload {
  filename : string
}.

(** The request body: [body.workspace_name] and [body.participants]. *)
Record AudioVideoFileRequest := mkRequest {
  workspace_name : string;
  participants : value
}.

(** The arguments of a call of [store_in_elastic]. *)
Record StoreCall := mkStoreCall {
  sc_workspace_name : string;
  sc_filename : string;
  sc_transcript : value;
  sc_participants : value;
  sc_transcript_embeddings : value
}.

(** The arguments of [background_tasks.add_task(self.schedule_mail, ...)]. *)
Record MailTask := mkMailTask {
  mt_workspace_name : string;
  mt_file_id : value;
  mt_summary : value
}.

(** [{"filename": _, "summary": _, "file_id": _}] *)
Record ProcessResult := mkProcessResult {
  pr_filename : string;
  pr_summary : value;
  pr_file_id : value
}.

(** What a call of [process_file] does to its collaborators, in order. *)
Inductive event :=
  | EProcess (file : UploadFile)
  | EStore (call : StoreCall)
  | ETask (task : MailTask).

(** The collaborators of the controller and the library functions it
    calls.  The outcome of a call of a service may depend on everything the
    controller has done before. *)
Record Services := mkServices {
  (** [await self.file_service.process_audio_video_files(file)] *)
  process_audio_video_files : list event -> UploadFile -> py_result (list (string * value));
  (** [await self.elastic_service.store_in_elastic(...)] *)
  store_in_elastic : list event -> StoreCall -> py_result value;
  (** [os.path.splitext(name)[1].lower()] *)
  splitext_lower : string -> string;
  (** [str(e)] *)
  str_of_exn : pyexn -> string
}.

Definition valid_audio_video_extensions : list string := [".mp3"; ".mp4"; ".avi"].

(** The local variables that live across the iterations of the loop, and
    the events so far.  [media_results] is bound by the first media file
    only: [None] stands for the unbound variable. *)
Record LoopState := mkLoopState {
  ls_media_results : option (list (string * value));
  ls_results : list ProcessResult;
  ls_trace : list event
}.

Definition store_call_of (body : AudioVideoFileRequest) (file : UploadFile)
    (media_results : list (string * value)) : StoreCall :=
  {| sc_workspace_name := workspace_name body;
     sc_filename := filename file;
     sc_transcript := dict_get_default media_results "transcript" (VStr "");
     sc_participants := participants body;
     sc_transcript_embeddings := dict_get_default media_results "embeddings" (VList []) |}.

Definition mail_task_of (body : AudioVideoFileRequest)
    (media_results : list (string * value)) (file_id : value) : MailTask :=
  {| mt_workspace_name := workspace_name body;
     mt_file_id := file_id;
     mt_summary := dict_get_default media_results "summary" (VStr "") |}.

Definition result_of (file : UploadFile)
    (media_results : list (string * value)) (file_id : value) : ProcessResult :=
  {| pr_filename := filename file;
     pr_summary := dict_get_default media_results "summary" (VStr "");
     pr_file_id := file_id |}.

(** The [if]/[elif]/[else] on the extension: the events so far and the
    binding of [media_results] after it, or the exception raised. *)
Definition extension_branch (sv : Services) (st : LoopState) (file : UploadFile)
    : list event * py_result (option (list (string * value))) :=
  let file_extension := splitext_lower sv (filename file) in
  if existsb (String.eqb file_extension) valid_audio_video_extensions
  then ((ls_trace st ++ [EProcess file])%list,
        let* media_results := process_audio_video_files sv (ls_trace st) file in
        Val (Some media_results))
  else if String.eqb file_extension ".pdf"
  then (ls_trace st, Val (ls_media_results st))
  else (ls_trace st, Exn (HTTPException 400 "Unsupported file type.")).

(** One iteration of [for file in files]: the events when it ends or
    raises, and the state it leaves or the exception. *)
Definition process_step (sv : Services) (body : AudioVideoFileRequest)
    (st : LoopState) (file : UploadFile) : list event * py_result LoopState :=
  match extension_branch sv st file with
  | (tr, Exn e) => (tr, Exn e)
  | (tr, Val None) => (tr, Exn (UnboundLocalError "media_results"))
  | (tr, Val (Some media_results)) =>
      let call := store_call_of body file media_results in
      match store_in_elastic sv tr call with
      | Exn e => ((tr ++ [EStore call])%list, Exn e)
      | Val file_id =>
          let tr' := (tr ++ [EStore call; ETask (mail_task_of body media_results file_id)])%list in
          (tr', Val {| ls_media_results := Some media_results;
                       ls_results := (ls_results st ++ [result_of file media_results file_id])%list;
                       ls_trace := tr' |})
      end
  end.

Fixpoint process_loop (sv : Services) (body : AudioVideoFileRequest)
    (files : list UploadFile) (st : LoopState) : list event * py_result LoopState :=
  match files with
  | [] => (ls_trace st, Val st)
  | file :: rest =>
      match process_step sv body st file with
      | (tr, Exn e) => (tr, Exn e)
      | (_, Val st') => process_loop sv body rest st'
      end
  end.

(** [process_file]: the events of the call, and the list it returns or the
    [HTTPException] that its handler of [except Exception] raises. *)
Definition process_file (sv : Services) (body : AudioVideoFileRequest)
    (files : list UploadFile) : list event * py_result (list ProcessResult) :=
  match process_loop sv body files
          {| ls_media_results := None; ls_results := []; ls_trace := [] |} with
  | (tr, Val st) => (tr, Val (ls_results st))
  | (tr, Exn e) =>
      (tr, Exn (HTTPException 500
                  ("Error storing data in Elasticsearch: " ++ str_of_exn sv e)))
  end.

(** The calls of [store_in_elastic] and the tasks added, among the events. *)
Definition stores (tr : list event) : list StoreCall :=
  flat_map (fun ev => match ev with EStore call => [call] | _ => [] end) tr.

Definition tasks (tr : list event) : list MailTask :=
  flat_map (fun ev => match ev with ETask task => [task] | _ => [] end) tr.

(** The extension is neither one of the media extensions nor [.pdf]. *)
Definition unsupported (sv : Services) (file : UploadFile) : Prop :=
  existsb (String.eqb (splitext_lower sv (filename file))) valid_audio_video_extensions = false
  /\ String.eqb (splitext_lower sv (filename file)) ".pdf" = false.

(** Stand-ins for the collaborators, for the examples: the media service
    answers a transcript and a summary made from the name of the file, the
    store answers the number of events so far as the file id, the extension
    is the last four characters of the name. *)
Definition example_services : Services :=
  {| process_audio_video_files := fun _ file =>
       Val [("transcript", VStr ("transcript of " ++ filename file));
            ("summary", VStr ("summary of " ++ filename file))];
     store_in_elastic := fun tr _ => Val (VNum (inject_Z (Z.of_nat (length tr))));
     splitext_lower := fun name => substring (String.length name - 4) 4 name;
     str_of_exn := fun e =>
       match e with
       | KeyError key => key
       | TypeError => "TypeError"
       | UnboundLocalError name => "local variable referenced before assignment: " ++ name
       | HTTPException _ detail => detail
       | ServiceError message => message
       end |}.

Definition example_request : AudioVideoFileRequest :=
  {| workspace_name := "team"; participants := VList [VStr "ann"; VStr "bob"] |}.

(** * Properties *)

Local Open Scope list_scope.

(** ** Comparison, [max] and [min] *)

Lemma Qltb_lt (a b : Q) : Qltb a b = true <-> a < b.
Proof. unfold Qltb, Qlt. apply Z.ltb_lt. Qed.

Lemma Qltb_ge (a b : Q) : Qltb a b = false <-> b <= a.
Proof. unfold Qltb, Qle. apply Z.ltb_ge. Qed.

Lemma py_max_lub_lt (a b c : Q) : py_max a b < c <-> a < c /\ b < c.
Proof.
  unfold py_max. destruct (Qltb a b) eqn:E.
  - apply Qltb_lt in E. split.
    + intros H. split; [eapply Qlt_trans; eassumption | assumption].
    + tauto.
  - apply Qltb_ge in E. split.
    + intros H. split; [assumption | eapply Qle_lt_trans; eassumption].
    + tauto.
Qed.

Lemma py_min_glb_lt (a b c : Q) : c < py_min a b <-> c < a /\ c < b.
Proof.
  unfold py_min. destruct (Qltb b a) eqn:E.
  - apply Qltb_lt in E. split.
    + intros H. split; [eapply Qlt_trans; eassumption | assumption].
    + tauto.
  - apply Qltb_ge in E. split.
    + intros H. split; [assumption | eapply Qlt_le_trans; eassumption].
    + tauto.
Qed.

Lemma py_max_r (a b : Q) : b <= py_max a b.
Proof.
  unfold py_max. destruct (Qltb a b) eqn:E.
  - apply Qle_refl.
  - now apply Qltb_ge in E.
Qed.

Lemma py_min_r (a b : Q) : py_min a b <= b.
Proof.
  unfold py_min. destruct (Qltb b a) eqn:E.
  - apply Qle_refl.
  - now apply Qltb_ge in E.
Qed.

(** * Rounding *)

(** ** Powers of two *)

Lemma pow2_pos (e : Z) : 0 < 2 ^ e.
Proof. apply Qpower_0_lt. reflexivity. Qed.

Lemma pow2_lt_inv (a b : Z) : 2 ^ a < 2 ^ b -> (a < b)%Z.
Proof. intros H. apply (Qpower_lt_compat_l_inv 2); [exact H | reflexivity]. Qed.

Lemma pow2_plus (a b : Z) : 2 ^ (a + b) == 2 ^ a * 2 ^ b.
Proof. apply Qpower_plus. discriminate. Qed.

Lemma pow2_inject (n : Z) : (0 <= n)%Z -> inject_Z (2 ^ n) == 2 ^ n.
Proof. intros H. apply (Zpower_Qpower 2 n H). Qed.

Lemma Q_num_den (x : Q) : x * inject_Z (Zpos (Qden x)) == inject_Z (Qnum x).
Proof. destruct x as [n d]. unfold Qeq, Qmult, inject_Z. simpl. lia. Qed.

Lemma pow2_split (a b : Z) : 2 ^ a == 2 ^ (a - b) * 2 ^ b.
Proof. rewrite <- pow2_plus. now replace (a - b + b)%Z with a by lia. Qed.

(** ** The binade of a positive number *)

Lemma ilog2_spec (x : Q) :
  0 < x -> 2 ^ ilog2 x <= x /\ x < 2 ^ (ilog2 x + 1).
Proof.
  intros Hx.
  assert (Hn : (0 < Qnum x)%Z) by (unfold Qlt in Hx; simpl in Hx; lia).
  set (a := Z.log2 (Qnum x)). set (b := Z.log2 (Zpos (Qden x))).
  pose proof (Z.log2_nonneg (Qnum x)) as Ha0.
  pose proof (Z.log2_nonneg (Zpos (Qden x))) as Hb0.
  destruct (Z.log2_spec (Qnum x) Hn) as [Ha1 Ha2].
  destruct (Z.log2_spec (Zpos (Qden x)) ltac:(lia)) as [Hb1 Hb2].
  fold a in Ha0, Ha1, Ha2. fold b in Hb0, Hb1, Hb2.
  rewrite Zle_Qle, pow2_inject in Ha1, Hb1 by assumption.
  rewrite Zlt_Qlt, pow2_inject in Ha2, Hb2 by lia.
  pose proof (Q_num_den x) as Hxd.
  assert (Hup : x < 2 ^ (a - b + 1)).
  { apply (Qmult_lt_r _ _ (2 ^ b) (pow2_pos b)).
    rewrite <- pow2_plus. replace (a - b + 1 + b)%Z with (Z.succ a) by lia.
    apply Qle_lt_trans with (inject_Z (Qnum x)); [|exact Ha2].
    rewrite <- Hxd. apply Qmult_le_l; assumption. }
  assert (Hlow : 2 ^ (a - b - 1) <= x).
  { apply (Qmult_le_r _ _ (2 ^ Z.succ b) (pow2_pos _)).
    rewrite <- pow2_plus. replace (a - b - 1 + Z.succ b)%Z with a by lia.
    apply Qle_trans with (inject_Z (Qnum x)); [exact Ha1|].
    rewrite <- Hxd. apply Qmult_le_l; [assumption|]. now apply Qlt_le_weak. }
  unfold ilog2. fold a b.
  destruct (Qle_bool (2 ^ (a - b)) x) eqn:E.
  - apply Qle_bool_iff in E. split; assumption.
  - split; [exact Hlow|].
    replace (a - b - 1 + 1)%Z with (a - b)%Z by lia.
    apply Qnot_le_lt. intros H. apply Qle_bool_iff in H. congruence.
Qed.

Lemma mantissa_bounds (x : Q) :
  0 < x ->
  inject_Z (2 ^ 52) <= x / 2 ^ (ilog2 x - 52)
  /\ x / 2 ^ (ilog2 x - 52) < inject_Z (2 ^ 53).
Proof.
  intros Hx. destruct (ilog2_spec x Hx) as [Hlo Hhi].
  rewrite !pow2_inject by lia. split.
  - apply Qle_shift_div_l; [apply pow2_pos|].
    rewrite <- pow2_plus. now replace (52 + (ilog2 x - 52))%Z with (ilog2 x) by lia.
  - apply Qlt_shift_div_r; [apply pow2_pos|].
    rewrite <- pow2_plus. now replace (53 + (ilog2 x - 52))%Z with (ilog2 x + 1)%Z by lia.
Qed.

(** ** Rounding to an integer *)

Lemma round_half_even_floor (q : Q) :
  (Qnum q / Zpos (Qden q) <= round_half_even q <= Qnum q / Zpos (Qden q) + 1)%Z.
Proof.
  unfold round_half_even.
  destruct (2 * (Qnum q mod Zpos (Qden q)) ?= Zpos (Qden q))%Z; [|lia|lia].
  destruct (Z.even _); lia.
Qed.

Lemma round_half_even_ge (z : Z) (q : Q) :
  inject_Z z <= q -> (z <= round_half_even q)%Z.
Proof.
  intros H. unfold Qle in H. simpl in H.
  pose proof (round_half_even_floor q) as [Hf _].
  assert (z <= Qnum q / Zpos (Qden q))%Z; [|lia].
  apply Z.div_le_lower_bound; lia.
Qed.

Lemma round_half_even_le (z : Z) (q : Q) :
  q <= inject_Z z -> (round_half_even q <= z)%Z.
Proof.
  intros H. unfold Qle in H. simpl in H.
  unfold round_half_even.
  pose proof (Z.div_mod (Qnum q) (Zpos (Qden q)) ltac:(lia)) as Hdm.
  pose proof (Z.mod_pos_bound (Qnum q) (Zpos (Qden q)) ltac:(lia)) as Hr.
  set (d := Zpos (Qden q)) in *. set (n := Qnum q) in *.
  set (f := (n / d)%Z) in *. set (r := (n mod d)%Z) in *.
  destruct (Z.compare_spec (2 * r) d) as [He|Hl|Hg].
  - destruct (Z.even f); nia.
  - nia.
  - nia.
Qed.

(** ** Rounding to 53 bits *)

Lemma round53_pos_positive (x : Q) : 0 < x -> 0 < round53_pos x.
Proof.
  intros Hx. unfold round53_pos.
  destruct (mantissa_bounds x Hx) as [Hlo _].
  apply round_half_even_ge in Hlo.
  apply Qmult_lt_0_compat; [|apply pow2_pos].
  rewrite <- (Zlt_Qlt 0). lia.
Qed.

Lemma round53_negative (x : Q) : x < 0 -> round53 x < 0.
Proof.
  intros Hx. unfold round53.
  replace (Qltb 0 x) with false
    by (symmetry; apply Qltb_ge; now apply Qlt_le_weak).
  replace (Qltb x 0) with true by (symmetry; now apply Qltb_lt).
  assert (0 < round53_pos (- x)) by (apply round53_pos_positive; lra). lra.
Qed.

Lemma representable53_opp (f : Q) : representable53 f -> representable53 (- f).
Proof.
  intros (m & e & Hm & Hf). exists (- m)%Z, e. split; [lia|].
  rewrite Hf, inject_Z_opp. ring.
Qed.

(** A representable number at or above the binade of [x] is a multiple of
    the unit of that binade. *)
Lemma representable53_multiple (f : Q) (e : Z) :
  representable53 f -> inject_Z (2 ^ 52) * 2 ^ e <= f ->
  exists K : Z, f == inject_Z K * 2 ^ e.
Proof.
  intros (m & ef & Hm & Hf) Hlo.
  assert (Hpos : 0 < f).
  { apply Qlt_le_trans with (inject_Z (2 ^ 52) * 2 ^ e); [|exact Hlo].
    apply Qmult_lt_0_compat; [reflexivity | apply pow2_pos]. }
  assert (Hm0 : (0 < m)%Z).
  { destruct (Z.lt_ge_cases 0 m) as [|Hle]; [assumption|exfalso].
    rewrite Hf in Hpos.
    assert (inject_Z m * 2 ^ ef <= 0); [|lra].
    rewrite <- (Qmult_0_l (2 ^ ef)). apply Qmult_le_compat_r.
    - unfold Qle. simpl. lia.
    - apply Qlt_le_weak, pow2_pos. }
  assert (He : (e <= ef)%Z).
  { assert (Hlt : 2 ^ (52 + e) < 2 ^ (53 + ef)); [|apply pow2_lt_inv in Hlt; lia].
    rewrite !pow2_plus, <- !pow2_inject by lia.
    apply Qle_lt_trans with f; [exact Hlo|]. rewrite Hf.
    apply Qmult_lt_compat_r; [apply pow2_pos|].
    rewrite <- (pow2_inject 53) by lia. rewrite <- Zlt_Qlt. lia. }
  exists (m * 2 ^ (ef - e))%Z.
  rewrite Hf, inject_Z_mult, pow2_inject by lia.
  rewrite (pow2_split ef e). ring.
Qed.

Lemma round53_pos_ge (x f : Q) :
  0 < x -> representable53 f -> f <= x -> f <= round53_pos x.
Proof.
  intros Hx Hf Hfx. unfold round53_pos.
  set (e := (ilog2 x - 52)%Z).
  destruct (mantissa_bounds x Hx) as [Hlo _]. fold e in Hlo.
  pose proof (round_half_even_ge _ _ Hlo) as HM.
  destruct (Qlt_le_dec f (inject_Z (2 ^ 52) * 2 ^ e)) as [Hsmall|Hbig].
  - apply Qle_trans with (inject_Z (2 ^ 52) * 2 ^ e); [now apply Qlt_le_weak|].
    apply Qmult_le_compat_r; [|apply Qlt_le_weak, pow2_pos].
    now rewrite <- Zle_Qle.
  - destruct (representable53_multiple f e Hf Hbig) as [K HK].
    rewrite HK. apply Qmult_le_compat_r; [|apply Qlt_le_weak, pow2_pos].
    rewrite <- Zle_Qle. apply round_half_even_ge.
    apply Qle_shift_div_l; [apply pow2_pos|]. now rewrite <- HK.
Qed.

Lemma round53_pos_le (x f : Q) :
  0 < x -> representable53 f -> x <= f -> round53_pos x <= f.
Proof.
  intros Hx Hf Hxf. unfold round53_pos.
  set (e := (ilog2 x - 52)%Z).
  destruct (mantissa_bounds x Hx) as [Hlo _]. fold e in Hlo.
  assert (Hbig : inject_Z (2 ^ 52) * 2 ^ e <= f).
  { apply Qle_trans with x; [|exact Hxf].
    apply (Qmult_le_r _ _ (/ 2 ^ e)); [apply Qinv_lt_0_compat, pow2_pos|].
    rewrite <- Qmult_assoc, Qmult_inv_r, Qmult_1_r; [exact Hlo|].
    pose proof (pow2_pos e). lra. }
  destruct (representable53_multiple f e Hf Hbig) as [K HK].
  rewrite HK. apply Qmult_le_compat_r; [|apply Qlt_le_weak, pow2_pos].
  rewrite <- Zle_Qle. apply round_half_even_le.
  apply Qle_shift_div_r; [apply pow2_pos|]. now rewrite <- HK.
Qed.

(** Rounding is monotone with respect to the representable numbers. *)
Lemma round53_ge (x f : Q) : representable53 f -> f <= x -> f <= round53 x.
Proof.
  intros Hf Hfx. unfold round53.
  destruct (Qltb 0 x) eqn:E1.
  - apply Qltb_lt in E1. now apply round53_pos_ge.
  - apply Qltb_ge in E1. destruct (Qltb x 0) eqn:E2.
    + apply Qltb_lt in E2.
      assert (round53_pos (- x) <= - f); [|lra].
      apply round53_pos_le; [lra | now apply representable53_opp | lra].
    + lra.
Qed.

Lemma round53_le (x f : Q) : representable53 f -> x <= f -> round53 x <= f.
Proof.
  intros Hf Hxf. unfold round53.
  destruct (Qltb 0 x) eqn:E1.
  - apply Qltb_lt in E1. now apply round53_pos_le.
  - apply Qltb_ge in E1. destruct (Qltb x 0) eqn:E2.
    + apply Qltb_lt in E2.
      assert (- f <= round53_pos (- x)); [|lra].
      apply round53_pos_ge; [lra | now apply representable53_opp | lra].
    + apply Qltb_ge in E2. lra.
Qed.

(** A representable number is left as it is. *)
Lemma round53_exact (f : Q) : representable53 f -> round53 f == f.
Proof.
  intros Hf. apply Qle_antisym.
  - apply round53_le; [exact Hf | apply Qle_refl].
  - apply round53_ge; [exact Hf | apply Qle_refl].
Qed.

(** ** The alignment loop appends, one transcription segment after another *)

(** A loop whose body only appends is a concatenation of what each
    iteration appends. *)
Lemma fold_left_appends {A B : Type} (step : list B -> A -> list B) (emit : A -> list B) :
  (forall acc x, step acc x = (acc ++ emit x)) ->
  forall l acc, fold_left step l acc = (acc ++ flat_map emit l).
Proof.
  intros Hstep l. induction l as [|x l IH]; intros acc; simpl.
  - now rewrite app_nil_r.
  - rewrite IH, Hstep, <- app_assoc. reflexivity.
Qed.

Lemma overlap_step_appends (trans : TransSegment) (acc : list Segment) (dia : DiaSegment) :
  overlap_step trans acc dia
  = (acc ++ (if hard_overlap trans dia then [overlap_segment trans dia] else [])).
Proof.
  unfold overlap_step, hard_overlap.
  destruct (Qltb _ _); [reflexivity | now rewrite app_nil_r].
Qed.

Lemma overlap_loop (trans : TransSegment) (dias : list DiaSegment) (acc : list Segment) :
  fold_left (overlap_step trans) dias acc
  = (acc ++ List.map (overlap_segment trans) (List.filter (hard_overlap trans) dias)).
Proof.
  rewrite (fold_left_appends _ _ (overlap_step_appends trans)). f_equal.
  induction dias as [|d dias IH]; simpl; [reflexivity|].
  rewrite IH. now destruct (hard_overlap trans d).
Qed.

Lemma overlap_output_eq (trans : TransSegment) (diarization : list DiaSegment) (tolerance : Q) :
  overlap_output trans diarization tolerance
  = List.map (overlap_segment trans)
      (List.filter (hard_overlap trans) (candidates trans diarization tolerance)).
Proof. unfold overlap_output. now rewrite overlap_loop. Qed.

Lemma segment_output_unknown (trans : TransSegment) (diarization : list DiaSegment) (tolerance : Q) :
  candidates trans diarization tolerance = [] ->
  segment_output trans diarization tolerance = [unknown_segment trans].
Proof.
  unfold segment_output, trans_step, candidates. now intros ->.
Qed.

Lemma segment_output_overlaps (trans : TransSegment) (diarization : list DiaSegment) (tolerance : Q) :
  candidates trans diarization tolerance <> [] ->
  segment_output trans diarization tolerance = overlap_output trans diarization tolerance.
Proof.
  unfold segment_output, trans_step, overlap_output, candidates.
  now destruct (overlapping_segments _ _ _ _).
Qed.

Lemma trans_step_appends (diarization : list DiaSegment) (tolerance : Q)
    (acc : list Segment) (trans : TransSegment) :
  trans_step diarization tolerance acc trans
  = (acc ++ segment_output trans diarization tolerance).
Proof.
  unfold segment_output, trans_step.
  destruct (overlapping_segments _ _ _ _) as [|d ds]; [reflexivity|].
  now rewrite !overlap_loop.
Qed.

Lemma unified_transcript_flat_map (transcription : list TransSegment)
    (diarization : list DiaSegment) (tolerance : Q) :
  unified_transcript transcription diarization tolerance
  = flat_map (fun trans => segment_output trans diarization tolerance) transcription.
Proof.
  unfold unified_transcript.
  now rewrite (fold_left_appends _ _ (trans_step_appends diarization tolerance)).
Qed.

Lemma unified_transcript_app (T1 T2 : list TransSegment)
    (diarization : list DiaSegment) (tolerance : Q) :
  unified_transcript (T1 ++ T2) diarization tolerance
  = (unified_transcript T1 diarization tolerance
     ++ unified_transcript T2 diarization tolerance).
Proof. rewrite !unified_transcript_flat_map. apply flat_map_app. Qed.

(** ** The merge loop keeps one open turn, the last of the list *)

Lemma merge_step_nil (seg : Segment) : merge_step [] seg = [seg].
Proof. reflexivity. Qed.

Lemma merge_step_snoc (turns : list Segment) (current seg : Segment) :
  merge_step (turns ++ [current]) seg
  = if String.eqb (seg_speaker seg) (seg_speaker current)
    then (turns ++ [extend current seg])
    else (turns ++ [current; seg]).
Proof.
  unfold merge_step. rewrite last_snoc, removelast_last.
  destruct (String.eqb _ _); [reflexivity|].
  now rewrite <- app_assoc.
Qed.

Lemma merge_loop_from (attributed turns : list Segment) (current : Segment) :
  fold_left merge_step attributed (turns ++ [current])
  = (turns ++ spec_merge_from current attributed).
Proof.
  revert turns current.
  induction attributed as [|s rest IH]; intros turns current; simpl.
  - reflexivity.
  - rewrite merge_step_snoc.
    destruct (String.eqb (seg_speaker s) (seg_speaker current)).
    + apply IH.
    + change [current; s] with ([current] ++ [s]).
      rewrite app_assoc, IH, <- app_assoc. reflexivity.
Qed.

(** The loop of the source computes the merger of the specification. *)
Lemma merge_spec_merge (attributed : list Segment) :
  merge attributed = spec_merge attributed.
Proof.
  destruct attributed as [|s rest]; [reflexivity|].
  unfold merge. simpl. apply (merge_loop_from rest [] s).
Qed.

Lemma merge_snoc (attributed : list Segment) (seg : Segment) :
  merge (attributed ++ [seg]) = merge_step (merge attributed) seg.
Proof. unfold merge. now rewrite fold_left_app. Qed.

Lemma spec_merge_from_last (current : Segment) (attributed : list Segment) :
  exists turns open, spec_merge_from current attributed = (turns ++ [open]).
Proof.
  revert current. induction attributed as [|s rest IH]; intros current; simpl.
  - exists [], current. reflexivity.
  - destruct (String.eqb _ _).
    + apply IH.
    + destruct (IH s) as (turns & open & ->).
      exists (current :: turns), open. reflexivity.
Qed.

(** ** Strings *)

Lemma string_app_assoc (a b c : string) : ((a ++ b) ++ c = a ++ (b ++ c))%string.
Proof. induction a as [|ch a IH]; simpl; [reflexivity | now rewrite IH]. Qed.

Lemma string_app_nil_r (a : string) : (a ++ "" = a)%string.
Proof. induction a as [|ch a IH]; simpl; [reflexivity | now rewrite IH]. Qed.

Lemma concat_space_cons (a b : string) (l : list string) :
  String.concat " " ((a ++ (" " ++ b))%string :: l)
  = (a ++ (" " ++ String.concat " " (b :: l)))%string.
Proof.
  destruct l as [|c l]; simpl; [reflexivity|].
  now rewrite string_app_assoc.
Qed.

(** ** Lists *)

Lemma last_default_cons {A : Type} (l : list A) (a d d' : A) :
  List.last (a :: l) d = List.last (a :: l) d'.
Proof.
  revert a. induction l as [|b l IH]; intros a; [reflexivity|].
  change (List.last (b :: l) d = List.last (b :: l) d'). apply IH.
Qed.

Lemma last_cons_shift {A : Type} (l : list A) (a d : A) :
  List.last (a :: l) d = List.last l a.
Proof.
  destruct l as [|b l]; [reflexivity|].
  change (List.last (b :: l) d = List.last (b :: l) a). apply last_default_cons.
Qed.

Lemma last_map_Some {A B : Type} (f : A -> B) (l : list A) (x : A) (d : B) :
  last l = Some x -> List.last (List.map f l) d = f x.
Proof.
  revert d. induction l as [|a l IH]; intros d H; [discriminate|].
  destruct l as [|b l].
  - injection H as ->. reflexivity.
  - rewrite last_cons_cons in H.
    change (List.last (List.map f (b :: l)) d = f x). now apply IH.
Qed.

(** ** Runs of one speaker *)

Lemma turn_of_nil (current : Segment) : turn_of current [] = current.
Proof. now destruct current. Qed.

Lemma turn_of_extend (current s : Segment) (run : list Segment) :
  turn_of (extend current s) run = turn_of current (s :: run).
Proof.
  unfold turn_of. cbn [extend seg_start seg_end seg_speaker seg_text List.map].
  now rewrite concat_space_cons, last_cons_shift.
Qed.

(** A run of segments that all carry the speaker of the open turn is
    absorbed into it; the first segment of another speaker closes the turn. *)
Lemma spec_merge_from_run_break (run rest : list Segment) (current s : Segment) :
  Forall (fun x => seg_speaker x = seg_speaker current) run ->
  seg_speaker s <> seg_speaker current ->
  spec_merge_from current (run ++ s :: rest)
  = turn_of current run :: spec_merge_from s rest.
Proof.
  revert current. induction run as [|x run IH]; intros current Hall Hs.
  - cbn [app spec_merge_from]. apply String.eqb_neq in Hs. rewrite Hs.
    now rewrite turn_of_nil.
  - inversion Hall as [|? ? Hx Hrun]; subst.
    cbn [app spec_merge_from]. rewrite Hx, String.eqb_refl.
    rewrite IH by assumption. now rewrite turn_of_extend.
Qed.

Lemma spec_merge_from_run (run : list Segment) (current : Segment) :
  Forall (fun x => seg_speaker x = seg_speaker current) run ->
  spec_merge_from current run = [turn_of current run].
Proof.
  revert current. induction run as [|x run IH]; intros current Hall.
  - cbn [spec_merge_from]. now rewrite turn_of_nil.
  - inversion Hall as [|? ? Hx Hrun]; subst.
    cbn [spec_merge_from]. rewrite Hx, String.eqb_refl.
    rewrite IH by assumption. now rewrite turn_of_extend.
Qed.

(** ** Alignment against an empty diarization *)

Lemma unified_transcript_no_diarization (T : list TransSegment) (tol : Q) :
  unified_transcript T [] tol = List.map unknown_segment T.
Proof.
  rewrite unified_transcript_flat_map.
  induction T as [|t T IH]; simpl; [reflexivity|]. now rewrite IH.
Qed.

(** C4: aligning a transcription [T] against an empty diarization, with a
    tolerance [tol >= 0], yields exactly [length T] segments, the [i]-th of
    which has the speaker UNKNOWN and the start, end and text of the [i]-th
    transcription segment. *)
Theorem C4_align_empty_diarization (T : list TransSegment) (tol : Q) :
  0 <= tol ->
  length (unified_transcript T [] tol) = length T /\
  unified_transcript T [] tol
  = List.map (fun t => {| seg_start := trans_start t;
                          seg_end := trans_end t;
                          seg_speaker := "UNKNOWN";
                          seg_text := trans_text t |}) T.
Proof.
  intros _. rewrite unified_transcript_no_diarization. split.
  - apply length_map.
  - reflexivity.
Qed.

Lemma C4_align_empty_diarization_witness :
  unified_transcript [mkTrans 0 1 "x"; mkTrans 3 (7#2) "y"] [] (1#2)
  = [mkSeg 0 1 "UNKNOWN" "x"; mkSeg 3 (7#2) "UNKNOWN" "y"].
Proof.
  apply (proj2 (C4_align_empty_diarization
                  [mkTrans 0 1 "x"; mkTrans 3 (7#2) "y"] (1#2)
                  ltac:(unfold Qle; simpl; lia))).
Defined.

(** C3: alignment and merge are one function, so for a transcription of
    [n >= 2] segments and an empty diarization the call returns exactly one
    turn: its speaker is UNKNOWN, its start the start of the first segment,
    its end the end of the last one, its text the texts of all segments in
    order, joined by spaces. *)
Theorem C3_unknown_segments_collapse (T : list TransSegment) (tol : Q)
    (first final : TransSegment) :
  (2 <= length T)%nat ->
  head T = Some first ->
  last T = Some final ->
  map_transcription_to_diarization T [] tol
  = Returned [ {| seg_start := trans_start first;
                  seg_end := trans_end final;
                  seg_speaker := "UNKNOWN";
                  seg_text := String.concat " " (List.map trans_text T) |} ].
Proof.
  intros _ Hfirst Hfinal.
  unfold map_transcription_to_diarization.
  rewrite unified_transcript_no_diarization, merge_spec_merge.
  destruct T as [|t T]; [discriminate|].
  injection Hfirst as ->.
  cbn [List.map spec_merge].
  rewrite spec_merge_from_run.
  - unfold turn_of.
    do 2 f_equal. cbn [unknown_segment seg_start seg_end seg_speaker seg_text].
    rewrite !List.map_map. cbn [unknown_segment seg_end seg_text].
    f_equal.
    rewrite <- (last_cons_shift _ _ (trans_end first)).
    change (trans_end first :: List.map (fun x => trans_end x) T)
      with (List.map trans_end (first :: T)).
    now apply last_map_Some.
  - apply List.Forall_forall. intros s Hs.
    apply List.in_map_iff in Hs as (t & <- & _). reflexivity.
Qed.

Lemma C3_unknown_segments_collapse_witness :
  map_transcription_to_diarization
    [mkTrans 0 1 "good"; mkTrans 1 (5#2) "morning"; mkTrans 4 6 "everyone"] [] (1#2)
  = Returned [mkSeg 0 6 "UNKNOWN" "good morning everyone"].
Proof.
  apply (C3_unknown_segments_collapse
           [mkTrans 0 1 "good"; mkTrans 1 (5#2) "morning"; mkTrans 4 6 "everyone"]
           (1#2) (mkTrans 0 1 "good") (mkTrans 4 6 "everyone")).
  - simpl. lia.
  - reflexivity.
  - reflexivity.
Defined.

(** ** The two tests of the alignment *)

Lemma hard_overlap_true (t : TransSegment) (d : DiaSegment) :
  hard_overlap t d = true
  <-> py_max (dia_start d) (trans_start t) < py_min (dia_end d) (trans_end t).
Proof. apply Qltb_lt. Qed.

Lemma hard_overlap_false (t : TransSegment) (d : DiaSegment) :
  hard_overlap t d = false
  <-> py_min (dia_end d) (trans_end t) <= py_max (dia_start d) (trans_start t).
Proof. apply Qltb_ge. Qed.

(** A true overlap passes the soft-match test of every tolerance [>= 0]. *)
Lemma hard_overlap_soft_match (t : TransSegment) (d : DiaSegment) (tol : Q) :
  0 <= tol -> hard_overlap t d = true ->
  soft_match (trans_start t) (trans_end t) tol d = true.
Proof.
  intros Htol H. apply hard_overlap_true in H.
  unfold soft_match, fsub. apply Qltb_lt.
  apply Qlt_le_trans with 0; [|exact Htol].
  apply round53_negative. lra.
Qed.

(** The subtraction rounds as the floats do.  With the floats nearest to
    [0.1] and [0.6], the gap [0.6 - 0.1] is [0.5], not less: at the tolerance
    [0.5] the diarization segment is no candidate and the transcription
    segment comes out UNKNOWN.  Likewise for the gap [0.5 - 2^-60]. *)
Example soft_match_rounds_the_gap :
  fsub (5404319552844595 # 9007199254740992) (3602879701896397 # 36028797018963968)
  == 1 # 2
  /\ segment_output (mkTrans 0 (3602879701896397 # 36028797018963968) "a")
       [mkDia (5404319552844595 # 9007199254740992) 2 "S1"] (1 # 2)
     = [mkSeg 0 (3602879701896397 # 36028797018963968) "UNKNOWN" "a"]
  /\ segment_output (mkTrans 0 (1 # 1152921504606846976) "a") [mkDia (1 # 2) 2 "S1"] (1 # 2)
     = [mkSeg 0 (1 # 1152921504606846976) "UNKNOWN" "a"].
Proof. split; [|split]; reflexivity. Qed.

(** A span with [end < start] overlaps nothing. *)
Lemma hard_overlap_trans_malformed (t : TransSegment) (d : DiaSegment) :
  trans_end t < trans_start t -> hard_overlap t d = false.
Proof.
  intros H. apply hard_overlap_false.
  pose proof (py_min_r (dia_end d) (trans_end t)).
  pose proof (py_max_r (dia_start d) (trans_start t)). lra.
Qed.

Lemma hard_overlap_dia_malformed (t : TransSegment) (d : DiaSegment) :
  dia_end d < dia_start d -> hard_overlap t d = false.
Proof.
  intros H. destruct (hard_overlap t d) eqn:E; [|reflexivity].
  apply hard_overlap_true in E.
  apply py_max_lub_lt in E as [E _]. apply py_min_glb_lt in E as [E _]. lra.
Qed.

(** ** Where the segments of the unified transcript come from *)

Lemma in_overlap_output (seg : Segment) (t : TransSegment) (D : list DiaSegment) (tol : Q) :
  In seg (overlap_output t D tol)
  <-> exists d, In d D
        /\ soft_match (trans_start t) (trans_end t) tol d = true
        /\ hard_overlap t d = true
        /\ seg = overlap_segment t d.
Proof.
  rewrite overlap_output_eq, List.in_map_iff. unfold candidates, overlapping_segments.
  split.
  - intros (d & <- & Hd). apply List.filter_In in Hd as [Hd Hhard].
    apply List.filter_In in Hd as [Hd Hsoft]. exists d. auto.
  - intros (d & Hd & Hsoft & Hhard & ->). exists d. split; [reflexivity|].
    apply List.filter_In. split; [|assumption].
    apply List.filter_In. auto.
Qed.

Lemma in_segment_output (seg : Segment) (t : TransSegment) (D : list DiaSegment) (tol : Q) :
  In seg (segment_output t D tol)
  <-> (candidates t D tol = [] /\ seg = unknown_segment t)
      \/ In seg (overlap_output t D tol).
Proof.
  destruct (candidates t D tol) as [|d ds] eqn:E.
  - rewrite segment_output_unknown by exact E.
    unfold overlap_output. rewrite E. simpl. split.
    + intros [<-|[]]. auto.
    + intros [[_ ->]|[]]. auto.
  - rewrite segment_output_overlaps by (rewrite E; discriminate). split.
    + auto.
    + intros [[Hnil _]|H]; [discriminate | exact H].
Qed.

Lemma in_unified_transcript (seg : Segment) (T : list TransSegment)
    (D : list DiaSegment) (tol : Q) :
  In seg (unified_transcript T D tol)
  <-> exists t, In t T /\ In seg (segment_output t D tol).
Proof. rewrite unified_transcript_flat_map. apply List.in_flat_map. Qed.

Lemma filter_sublist {A : Type} (f : A -> bool) (l : list A) :
  sublist (List.filter f l) l.
Proof.
  induction l as [|a l IH]; simpl.
  - constructor.
  - destruct (f a); now constructor.
Qed.

Lemma filter_hard_overlap_none (t : TransSegment) (l : list DiaSegment) :
  Forall (fun d => py_min (dia_end d) (trans_end t)
                   <= py_max (dia_start d) (trans_start t)) l ->
  List.filter (hard_overlap t) l = [].
Proof.
  induction 1 as [|d ds Hd _ IH]; [reflexivity|].
  simpl. apply hard_overlap_false in Hd. now rewrite Hd.
Qed.

Lemma filter_hard_overlap_malformed (t : TransSegment) (l : list DiaSegment) :
  trans_end t < trans_start t -> List.filter (hard_overlap t) l = [].
Proof.
  intros H. induction l as [|c cs IH]; [reflexivity|].
  simpl. now rewrite hard_overlap_trans_malformed.
Qed.

(** A transcription segment with [end < start] is aligned like any other:
    it overlaps nothing, so it comes out as one UNKNOWN segment with its
    span as it is, or as nothing when some candidate soft-matches. *)
Lemma segment_output_malformed (t : TransSegment) (D : list DiaSegment) (tol : Q) :
  trans_end t < trans_start t ->
  segment_output t D tol = [unknown_segment t] \/ segment_output t D tol = [].
Proof.
  intros H. destruct (candidates t D tol) as [|d ds] eqn:E.
  - left. now apply segment_output_unknown.
  - right. rewrite segment_output_overlaps by (rewrite E; discriminate).
    rewrite overlap_output_eq.
    now rewrite filter_hard_overlap_malformed.
Qed.

(** C1, as the code has it: a call whose input holds a segment with
    [end < start] does not fail.  It returns a list of turns, no
    InvalidSpanError is raised, and the spans are not validated: a malformed
    transcription segment yields one UNKNOWN segment with its span unchanged,
    or nothing, and a malformed diarization segment overlaps nothing. *)
Theorem C1_malformed_span_not_rejected (T : list TransSegment)
    (D : list DiaSegment) (tol : Q) :
  Exists (fun t => trans_end t < trans_start t) T
  \/ Exists (fun d => dia_end d < dia_start d) D ->
  (exists turns, map_transcription_to_diarization T D tol = Returned turns)
  /\ map_transcription_to_diarization T D tol <> Raised InvalidSpanError
  /\ (forall t, In t T -> trans_end t < trans_start t ->
        segment_output t D tol = [unknown_segment t] \/ segment_output t D tol = [])
  /\ (forall t d, In d D -> dia_end d < dia_start d -> hard_overlap t d = false).
Proof.
  intros _. split; [|split; [|split]].
  - eexists. reflexivity.
  - discriminate.
  - intros t _ Ht. now apply segment_output_malformed.
  - intros t d _ Hd. now apply hard_overlap_dia_malformed.
Qed.

Lemma C1_malformed_span_not_rejected_witness :
  exists turns,
    map_transcription_to_diarization
      [mkTrans 2 1 "x"; mkTrans 3 4 "y"] [mkDia 3 5 "S1"; mkDia 9 8 "S2"] (1#2)
    = Returned turns.
Proof.
  apply (proj1 (C1_malformed_span_not_rejected
                  [mkTrans 2 1 "x"; mkTrans 3 4 "y"]
                  [mkDia 3 5 "S1"; mkDia 9 8 "S2"] (1#2)
                  ltac:(left; apply Exists_cons_hd; unfold Qlt; simpl; lia))).
Defined.

(** C1, as the specification states it, fails: the transcription segment
    [{2, 1, "x"}] has [end < start], and the call returns a turn with that
    very span instead of failing with InvalidSpanError. *)
Lemma C1_counterexample :
  Exists (fun t => trans_end t < trans_start t) [mkTrans 2 1 "x"]
  /\ map_transcription_to_diarization [mkTrans 2 1 "x"] [] (1#2)
     = Returned [mkSeg 2 1 "UNKNOWN" "x"]
  /\ map_transcription_to_diarization [mkTrans 2 1 "x"] [] (1#2)
     <> Raised InvalidSpanError.
Proof.
  split; [|split].
  - apply Exists_cons_hd. unfold Qlt. simpl. lia.
  - reflexivity.
  - discriminate.
Qed.

(** C5: a transcription segment [t] whose set of soft-match candidates is
    not empty, and all of whose candidates fail the test of the hard overlap
    ([max] of the starts [>=] [min] of the ends), contributes no segment to
    the output: it is dropped, not reported as UNKNOWN.  The witness is the
    case [t = {0, 1, "a"}], [D = [{1.3, 2, "S1"}]], tolerance [0.5]. *)
Theorem C5_soft_only_segment_dropped (t : TransSegment) (D : list DiaSegment)
    (tol : Q) (T1 T2 : list TransSegment) :
  candidates t D tol <> [] ->
  Forall (fun d => py_min (dia_end d) (trans_end t)
                   <= py_max (dia_start d) (trans_start t))
         (candidates t D tol) ->
  segment_output t D tol = []
  /\ unified_transcript (T1 ++ t :: T2) D tol
     = unified_transcript T1 D tol ++ unified_transcript T2 D tol.
Proof.
  intros Hne Hall.
  assert (Hout : segment_output t D tol = []).
  { rewrite segment_output_overlaps by exact Hne. rewrite overlap_output_eq.
    now rewrite filter_hard_overlap_none. }
  split; [exact Hout|].
  change (t :: T2) with ([t] ++ T2).
  rewrite !unified_transcript_app. f_equal.
  rewrite (unified_transcript_flat_map [t]). simpl. now rewrite Hout.
Qed.

Lemma C5_soft_only_segment_dropped_witness :
  candidates (mkTrans 0 1 "a") [mkDia (13#10) 2 "S1"] (1#2) = [mkDia (13#10) 2 "S1"]
  /\ segment_output (mkTrans 0 1 "a") [mkDia (13#10) 2 "S1"] (1#2) = []
  /\ unified_transcript [mkTrans 0 1 "a"] [mkDia (13#10) 2 "S1"] (1#2) = [].
Proof.
  split; [reflexivity|].
  assert (Hne : candidates (mkTrans 0 1 "a") [mkDia (13#10) 2 "S1"] (1#2) <> [])
    by (vm_compute; discriminate).
  assert (Hall : Forall (fun d => py_min (dia_end d) (trans_end (mkTrans 0 1 "a"))
                                  <= py_max (dia_start d) (trans_start (mkTrans 0 1 "a")))
                   (candidates (mkTrans 0 1 "a") [mkDia (13#10) 2 "S1"] (1#2))).
  { vm_compute. constructor; [discriminate | constructor]. }
  split.
  - apply (proj1 (C5_soft_only_segment_dropped
                    (mkTrans 0 1 "a") [mkDia (13#10) 2 "S1"] (1#2) [] [] Hne Hall)).
  - apply (proj2 (C5_soft_only_segment_dropped
                    (mkTrans 0 1 "a") [mkDia (13#10) 2 "S1"] (1#2) [] [] Hne Hall)).
Defined.

(** C6: the segments of the unified transcript come in the order of the
    transcription segments they originate from (the output is the
    concatenation, in the order of the transcription, of what each segment
    yields), and the segments that one transcription segment yields come in
    the order of the diarization list (they are the overlap segments of a
    subsequence of the diarization, or the single UNKNOWN segment).  Nothing
    is sorted: the timestamps play no part in the order. *)
Theorem C6_output_order (D : list DiaSegment) (tol : Q) :
  (forall T, unified_transcript T D tol
             = List.concat (List.map (fun t => segment_output t D tol) T))
  /\ (forall T1 T2, unified_transcript (T1 ++ T2) D tol
                    = unified_transcript T1 D tol ++ unified_transcript T2 D tol)
  /\ (forall t,
        segment_output t D tol = [unknown_segment t]
        \/ exists D', sublist D' D
             /\ segment_output t D tol = List.map (overlap_segment t) D').
Proof.
  split; [|split].
  - intros T. rewrite unified_transcript_flat_map. apply List.flat_map_concat_map.
  - intros T1 T2. apply unified_transcript_app.
  - intros t. destruct (candidates t D tol) as [|d ds] eqn:E.
    + left. now apply segment_output_unknown.
    + right. exists (List.filter (hard_overlap t) (candidates t D tol)). split.
      * transitivity (candidates t D tol); apply filter_sublist.
      * rewrite segment_output_overlaps by (rewrite E; discriminate).
        apply overlap_output_eq.
Qed.

(** The order of the output is the order of the input even when that is not
    the order of time. *)
Example output_not_sorted_by_time :
  unified_transcript [mkTrans 5 6 "late"; mkTrans 0 1 "early"]
                     [mkDia 5 6 "S2"; mkDia 0 1 "S1"] (1#2)
  = [mkSeg 5 6 "S2" "late"; mkSeg 0 1 "S1" "early"].
Proof. reflexivity. Qed.

Lemma overlap_segment_positive (t : TransSegment) (d : DiaSegment) :
  hard_overlap t d = true ->
  seg_start (overlap_segment t d) < seg_end (overlap_segment t d).
Proof. intros H. now apply hard_overlap_true in H. Qed.

(** C9: for valid input spans ([end >= start] in both lists) and a tolerance
    [>= 0], every segment that the branch of the true overlaps emits is a
    segment of the unified transcript with [end > start]; and every segment
    of the unified transcript whose speaker is not UNKNOWN is one of them.
    (The test [overlap_start < overlap_end] alone gives the bound: the proof
    uses neither the validity of the spans nor the sign of the tolerance.) *)
Theorem C9_overlap_branch_positive_span (T : list TransSegment)
    (D : list DiaSegment) (tol : Q) :
  Forall trans_valid T -> Forall dia_valid D -> 0 <= tol ->
  (forall t seg, In t T -> In seg (overlap_output t D tol) ->
     In seg (unified_transcript T D tol) /\ seg_start seg < seg_end seg)
  /\ (forall seg, In seg (unified_transcript T D tol) ->
        seg_speaker seg <> "UNKNOWN" ->
        (exists t, In t T /\ In seg (overlap_output t D tol))
        /\ seg_start seg < seg_end seg).
Proof.
  intros _ _ _.
  assert (Hpos : forall t seg, In seg (overlap_output t D tol) ->
                   seg_start seg < seg_end seg).
  { intros t seg Hseg. apply in_overlap_output in Hseg as (d & _ & _ & Hhard & ->).
    now apply overlap_segment_positive. }
  split.
  - intros t seg Ht Hseg. split; [|now apply (Hpos t)].
    apply in_unified_transcript. exists t. split; [exact Ht|].
    apply in_segment_output. now right.
  - intros seg Hseg Hspk.
    apply in_unified_transcript in Hseg as (t & Ht & Hseg).
    apply in_segment_output in Hseg as [[_ ->]|Hseg].
    + now contradiction Hspk.
    + split; [exists t; now split | now apply (Hpos t)].
Qed.

Lemma C9_overlap_branch_positive_span_witness :
  In (mkSeg 1 2 "S1" "hello")
     (unified_transcript [mkTrans 0 2 "hello"] [mkDia 1 3 "S1"; mkDia 2 4 "S2"] (1#2))
  /\ seg_start (mkSeg 1 2 "S1" "hello") < seg_end (mkSeg 1 2 "S1" "hello").
Proof.
  apply (proj1 (C9_overlap_branch_positive_span
                  [mkTrans 0 2 "hello"] [mkDia 1 3 "S1"; mkDia 2 4 "S2"] (1#2)
                  ltac:(repeat constructor; unfold trans_valid, Qle; simpl; lia)
                  ltac:(repeat constructor; unfold dia_valid, Qle; simpl; lia)
                  ltac:(unfold Qle; simpl; lia))
          (mkTrans 0 2 "hello") (mkSeg 1 2 "S1" "hello")).
  - left. reflexivity.
  - left. reflexivity.
Defined.

(** C10: for a pair that truly overlaps ([max] of the starts [<] [min] of the
    ends) and a tolerance [>= 0], the segment emitted has the hard overlap
    window as its span, the label of the diarization segment as its speaker
    and the whole text of the transcription segment as its text: it is the
    only output for the pair alone, and it is in the output of every call
    whose lists hold the pair.  Every attributed segment of a call, if it is
    not the UNKNOWN segment of a transcription segment, has this shape for
    some pair of the input.  The witness is [T = {0, 2, "hello"}],
    [D = [{1, 3, "S1"}]], tolerance [0.5], with output [{1, 2, "S1", "hello"}]. *)
Theorem C10_true_overlap_segment (t : TransSegment) (d : DiaSegment) (tol : Q) :
  0 <= tol ->
  py_max (dia_start d) (trans_start t) < py_min (dia_end d) (trans_end t) ->
  let window (t' : TransSegment) (d' : DiaSegment) :=
    {| seg_start := py_max (dia_start d') (trans_start t');
       seg_end := py_min (dia_end d') (trans_end t');
       seg_speaker := dia_speaker d';
       seg_text := trans_text t' |} in
  unified_transcript [t] [d] tol = [window t d]
  /\ (forall T D, In t T -> In d D -> In (window t d) (unified_transcript T D tol))
  /\ (forall T D seg, In seg (unified_transcript T D tol) ->
        (exists t', In t' T /\ seg = unknown_segment t')
        \/ (exists t' d', In t' T /\ In d' D /\ seg = window t' d')).
Proof.
  intros Htol Hov window.
  apply hard_overlap_true in Hov.
  pose proof (hard_overlap_soft_match t d tol Htol Hov) as Hsoft.
  split; [|split].
  - rewrite unified_transcript_flat_map. simpl. rewrite app_nil_r.
    unfold segment_output, trans_step, overlapping_segments. simpl.
    rewrite Hsoft. simpl. unfold overlap_step.
    unfold hard_overlap in Hov. now rewrite Hov.
  - intros T D Ht Hd. apply in_unified_transcript. exists t. split; [exact Ht|].
    apply in_segment_output. right. apply in_overlap_output. exists d. auto.
  - intros T D seg Hseg.
    apply in_unified_transcript in Hseg as (t' & Ht' & Hseg).
    apply in_segment_output in Hseg as [[_ ->]|Hseg].
    + left. exists t'. auto.
    + right. apply in_overlap_output in Hseg as (d' & Hd' & _ & _ & ->).
      exists t', d'. auto.
Qed.

Lemma C10_true_overlap_segment_witness :
  unified_transcript [mkTrans 0 2 "hello"] [mkDia 1 3 "S1"] (1#2)
  = [mkSeg 1 2 "S1" "hello"].
Proof.
  apply (proj1 (C10_true_overlap_segment (mkTrans 0 2 "hello") (mkDia 1 3 "S1") (1#2)
                  ltac:(unfold Qle; simpl; lia)
                  ltac:(unfold Qlt; simpl; lia))).
Defined.

(** ** Spans of the merged turns *)

Lemma spec_merge_from_valid (rest : list Segment) (current : Segment) :
  seg_valid current ->
  Forall seg_valid rest ->
  Forall (starts_le current) rest ->
  StronglySorted starts_le rest ->
  Forall seg_valid (spec_merge_from current rest).
Proof.
  revert current. induction rest as [|s rest IH]; intros current Hcur Hval Hle Hsort.
  - repeat constructor. exact Hcur.
  - inversion Hval as [|? ? Hs Hrest]; subst.
    inversion Hle as [|? ? Hcs Hcrest]; subst.
    apply StronglySorted_inv in Hsort as [Hsort Hsrest].
    cbn [spec_merge_from]. destruct (String.eqb _ _).
    + apply IH; try assumption.
      unfold seg_valid, starts_le in *. simpl. lra.
    + constructor; [exact Hcur|]. now apply IH.
Qed.

(** C2, as the code has it: when every segment satisfies [end >= start] and
    the segments come in chronological order (their starts do not decrease),
    every turn of the merge satisfies [end >= start].  A turn keeps the start
    of the first segment of its run and takes the end of the last one. *)
Theorem C2_merge_chronological_valid (attributed : list Segment) :
  Forall seg_valid attributed ->
  Sorted starts_le attributed ->
  Forall seg_valid (merge attributed).
Proof.
  intros Hval Hsort. rewrite merge_spec_merge.
  apply Sorted_StronglySorted in Hsort.
  2:{ intros a b c. unfold starts_le. apply Qle_trans. }
  destruct attributed as [|s rest]; [constructor|].
  inversion Hval; subst. apply StronglySorted_inv in Hsort as [Hsort Hle].
  now apply spec_merge_from_valid.
Qed.

Lemma C2_merge_chronological_valid_witness :
  Forall seg_valid
    (merge [mkSeg 0 10 "S1" "a"; mkSeg 2 3 "S1" "b"; mkSeg 4 5 "S2" "c"]).
Proof.
  apply (C2_merge_chronological_valid
           [mkSeg 0 10 "S1" "a"; mkSeg 2 3 "S1" "b"; mkSeg 4 5 "S2" "c"]).
  - repeat constructor; unfold seg_valid, Qle; simpl; lia.
  - repeat constructor; unfold starts_le, Qle; simpl; lia.
Defined.

(** C2, as the specification states it, fails: the valid inputs
    [T = [{5, 6, "a"}, {0, 1, "b"}]] and [D = [{0, 10, "S1"}]] align to two
    valid segments of the speaker S1, and their merge is the turn
    [{5, 1, "S1", "a b"}], whose end precedes its start. *)
Lemma C2_counterexample :
  let attributed :=
    unified_transcript [mkTrans 5 6 "a"; mkTrans 0 1 "b"] [mkDia 0 10 "S1"] (1#2) in
  attributed = [mkSeg 5 6 "S1" "a"; mkSeg 0 1 "S1" "b"]
  /\ Forall seg_valid attributed
  /\ merge attributed = [mkSeg 5 1 "S1" "a b"]
  /\ ~ Forall seg_valid (merge attributed).
Proof.
  split; [reflexivity|]. split; [|split].
  - repeat constructor; unfold seg_valid, Qle; simpl; lia.
  - reflexivity.
  - intros H. inversion H as [|? ? Hbad _]; subst.
    revert Hbad. unfold seg_valid, Qle. simpl. lia.
Qed.

(** ** Speakers of the merged turns *)

Lemma spec_merge_from_speakers (rest : list Segment) (current : Segment) :
  List.map seg_speaker (spec_merge_from current rest)
  = squeeze (seg_speaker current :: List.map seg_speaker rest).
Proof.
  revert current. induction rest as [|s rest IH]; intros current; [reflexivity|].
  cbn [spec_merge_from List.map squeeze].
  rewrite (String.eqb_sym (seg_speaker current)).
  destruct (String.eqb (seg_speaker s) (seg_speaker current)) eqn:E.
  - rewrite IH. apply String.eqb_eq in E. cbn [extend seg_speaker]. now rewrite E.
  - cbn [List.map]. now rewrite IH.
Qed.

(** C7: the merge is by adjacency only.  A segment is merged into the turn
    before it exactly when the two speakers are equal, and then the turn
    takes the end of the segment and its text after a space; otherwise the
    segment opens a new turn.  Runs of one speaker with a run of another
    speaker in between stay distinct turns, also when the outer runs have the
    same speaker; the speakers of the turns are the speakers of the segments
    without the immediate repetitions.  The merge is the single pass of the
    specification, and its two examples evaluate as stated. *)
Theorem C7_merge_adjacency_only :
  (forall attributed seg,
     match last (merge attributed) with
     | Some current =>
         merge (attributed ++ [seg])
         = if String.eqb (seg_speaker seg) (seg_speaker current)
           then removelast (merge attributed)
                ++ [ {| seg_start := seg_start current;
                       seg_end := seg_end seg;
                       seg_speaker := seg_speaker current;
                       seg_text := (seg_text current ++ " " ++ seg_text seg)%string |} ]
           else merge attributed ++ [seg]
     | None => attributed = [] /\ merge (attributed ++ [seg]) = [seg]
     end)
  /\ (forall a b c runA runB runC,
        Forall (fun x => seg_speaker x = seg_speaker a) runA ->
        Forall (fun x => seg_speaker x = seg_speaker b) runB ->
        Forall (fun x => seg_speaker x = seg_speaker c) runC ->
        seg_speaker b <> seg_speaker a ->
        seg_speaker c <> seg_speaker b ->
        merge (a :: runA ++ b :: runB ++ c :: runC)
        = [turn_of a runA; turn_of b runB; turn_of c runC])
  /\ (forall attributed,
        List.map seg_speaker (merge attributed)
        = squeeze (List.map seg_speaker attributed))
  /\ (forall attributed, merge attributed = spec_merge attributed)
  /\ merge [mkSeg 0 1 "S1" "hi"; mkSeg 1 2 "S1" "there"; mkSeg 2 3 "S2" "bye"]
     = [mkSeg 0 2 "S1" "hi there"; mkSeg 2 3 "S2" "bye"]
  /\ merge [mkSeg 0 1 "S1" "a"; mkSeg 1 2 "S2" "b"; mkSeg 2 3 "S1" "c"]
     = [mkSeg 0 1 "S1" "a"; mkSeg 1 2 "S2" "b"; mkSeg 2 3 "S1" "c"].
Proof.
  split; [|split; [|split; [|split; [|split]]]].
  - intros attributed seg. rewrite merge_snoc.
    destruct (last (merge attributed)) as [current|] eqn:E.
    + unfold merge_step. rewrite E. reflexivity.
    + apply last_None in E. split.
      * destruct attributed as [|s rest]; [reflexivity|].
        rewrite merge_spec_merge in E. cbn [spec_merge] in E.
        destruct (spec_merge_from_last s rest) as (turns & open & H).
        rewrite H in E. now destruct turns.
      * now rewrite E.
  - intros a b c runA runB runC HA HB HC Hba Hcb.
    rewrite merge_spec_merge. cbn [spec_merge].
    rewrite spec_merge_from_run_break by assumption.
    rewrite spec_merge_from_run_break by assumption.
    now rewrite spec_merge_from_run.
  - intros attributed. rewrite merge_spec_merge.
    destruct attributed as [|s rest]; [reflexivity|].
    apply spec_merge_from_speakers.
  - apply merge_spec_merge.
  - reflexivity.
  - reflexivity.
Qed.

Lemma C7_merge_adjacency_only_witness :
  merge ([mkSeg 0 1 "S1" "a"; mkSeg 1 2 "S1" "b"]
         ++ [mkSeg 2 3 "S2" "c"]
         ++ [mkSeg 3 4 "S1" "d"; mkSeg 4 5 "S1" "e"])
  = [mkSeg 0 2 "S1" "a b"; mkSeg 2 3 "S2" "c"; mkSeg 3 5 "S1" "d e"].
Proof.
  apply (proj1 (proj2 C7_merge_adjacency_only)
           (mkSeg 0 1 "S1" "a") (mkSeg 2 3 "S2" "c") (mkSeg 3 4 "S1" "d")
           [mkSeg 1 2 "S1" "b"] [] [mkSeg 4 5 "S1" "e"]).
  - repeat constructor.
  - constructor.
  - repeat constructor.
  - simpl. discriminate.
  - simpl. discriminate.
Defined.

(** ** The rendering of a number with two decimals *)

Lemma nilempty_string_of_uint_digits (d : Decimal.uint) :
  all_digits (NilEmpty.string_of_uint d) = true.
Proof. induction d; simpl; auto. Qed.

Lemma decimal_digits (z : Z) : all_digits (decimal z) = true /\ decimal z <> ""%string.
Proof.
  unfold decimal. generalize (N.to_uint (Z.to_N z)). intros d.
  destruct d; simpl; split; try discriminate; try reflexivity;
    apply nilempty_string_of_uint_digits.
Qed.

Lemma digit_is_digit (z : Z) : (0 <= z < 10)%Z -> is_digit (digit z) = true.
Proof.
  intros H.
  assert (Hz : (z = 0 \/ z = 1 \/ z = 2 \/ z = 3 \/ z = 4 \/ z = 5 \/ z = 6
                \/ z = 7 \/ z = 8 \/ z = 9)%Z) by lia.
  repeat (destruct Hz as [->|Hz]; [reflexivity|]). now subst.
Qed.

Lemma format_2f_shape (x : Q) :
  exists (sign int : string) (d1 d2 : ascii),
    format_2f x = (sign ++ int ++ "." ++ String d1 (String d2 ""))%string
    /\ (sign = ""%string \/ sign = "-"%string)
    /\ int <> ""%string
    /\ all_digits int = true
    /\ is_digit d1 = true /\ is_digit d2 = true.
Proof.
  unfold format_2f.
  set (h := round_half_even (Qabs x * 100)).
  exists (if Qltb x 0 then "-" else "")%string, (decimal (h / 100)),
         (digit ((h / 10) mod 10)), (digit (h mod 10)).
  destruct (decimal_digits (h / 100)) as [Hd Hne].
  repeat split; try assumption.
  - destruct (Qltb x 0); auto.
  - apply digit_is_digit. apply Z.mod_pos_bound. lia.
  - apply digit_is_digit. apply Z.mod_pos_bound. lia.
Qed.

(** The rounding goes to a nearest integer: the error is at most one half. *)
Lemma round_half_even_nearest (q : Q) :
  (2 * Z.abs (round_half_even q * Zpos (Qden q) - Qnum q) <= Zpos (Qden q))%Z.
Proof.
  unfold round_half_even.
  pose proof (Z.div_mod (Qnum q) (Zpos (Qden q)) ltac:(lia)) as Hdm.
  pose proof (Z.mod_pos_bound (Qnum q) (Zpos (Qden q)) ltac:(lia)) as Hr.
  set (d := Zpos (Qden q)) in *. set (n := Qnum q) in *.
  set (f := (n / d)%Z) in *. set (r := (n mod d)%Z) in *.
  destruct (Z.compare_spec (2 * r) d) as [He|Hl|Hg].
  - destruct (Z.even f); nia.
  - nia.
  - nia.
Qed.

(** ** Joining lines *)

Lemma concat_snoc (sep : string) (l : list string) (x : string) :
  String.concat sep (l ++ [x])
  = ((match l with [] => "" | _ :: _ => String.concat sep l ++ sep end) ++ x)%string.
Proof.
  induction l as [|a l IH]; [reflexivity|].
  destruct l as [|b l].
  - simpl. now rewrite string_app_assoc.
  - change (String.concat sep ((a :: b :: l) ++ [x]))
      with (a ++ sep ++ String.concat sep ((b :: l) ++ [x]))%string.
    rewrite IH.
    change (String.concat sep (a :: b :: l))
      with (a ++ sep ++ String.concat sep (b :: l))%string.
    now rewrite !string_app_assoc.
Qed.

(** ** Reading the rendering of a number back *)

Lemma read_digit (c : ascii) (rest : string) (acc : Z) :
  is_digit c = true ->
  read_hundredths (String c rest) acc
  = read_hundredths rest (10 * acc + digit_value c)%Z.
Proof.
  intros H. cbn [read_hundredths].
  destruct (Ascii.eqb_spec c "."%char) as [->|_]; [discriminate|].
  now rewrite H.
Qed.

Lemma read_uint_acc (d : Decimal.uint) (tail : string) (acc : positive) :
  read_hundredths (NilEmpty.string_of_uint d ++ tail)%string (Zpos acc)
  = read_hundredths tail (Zpos (Pos.of_uint_acc d acc)).
Proof.
  revert acc. induction d; intros acc; cbn [NilEmpty.string_of_uint append Pos.of_uint_acc];
    [reflexivity|..];
    (rewrite read_digit by reflexivity; rewrite <- IHd; f_equal;
     match goal with
     | |- context [digit_value ?c] =>
         let v := eval vm_compute in (digit_value c) in
         change (digit_value c) with v
     end; lia).
Qed.

Lemma read_uint (d : Decimal.uint) (tail : string) :
  read_hundredths (NilEmpty.string_of_uint d ++ tail)%string 0
  = read_hundredths tail (Z.of_N (Pos.of_uint d)).
Proof.
  induction d; cbn [NilEmpty.string_of_uint append Pos.of_uint];
    [reflexivity|..];
    rewrite read_digit by reflexivity;
    match goal with
    | |- context [digit_value ?c] =>
        let v := eval vm_compute in (digit_value c) in
        change (digit_value c) with v
    end.
  - exact IHd.
  - apply (read_uint_acc d tail 1).
  - apply (read_uint_acc d tail 2).
  - apply (read_uint_acc d tail 3).
  - apply (read_uint_acc d tail 4).
  - apply (read_uint_acc d tail 5).
  - apply (read_uint_acc d tail 6).
  - apply (read_uint_acc d tail 7).
  - apply (read_uint_acc d tail 8).
  - apply (read_uint_acc d tail 9).
Qed.

Lemma read_decimal (z : Z) (tail : string) :
  (0 <= z)%Z ->
  read_hundredths (decimal z ++ tail)%string 0 = read_hundredths tail z.
Proof.
  intros Hz. unfold decimal.
  rewrite <- (Z2N.id z Hz) at 2.
  rewrite <- (DecimalN.Unsigned.of_to (Z.to_N z)) at 2.
  generalize (N.to_uint (Z.to_N z)). intros d.
  destruct d; try apply read_uint. reflexivity.
Qed.

Lemma digit_value_digit (z : Z) : (0 <= z < 10)%Z -> digit_value (digit z) = z.
Proof.
  intros H.
  assert (Hz : (z = 0 \/ z = 1 \/ z = 2 \/ z = 3 \/ z = 4 \/ z = 5 \/ z = 6
                \/ z = 7 \/ z = 8 \/ z = 9)%Z) by lia.
  repeat (destruct Hz as [->|Hz]; [reflexivity|]). now subst.
Qed.

Lemma read_point (a b acc : Z) :
  (0 <= a < 10)%Z -> (0 <= b < 10)%Z ->
  read_hundredths ("." ++ String (digit a) (String (digit b) ""))%string acc
  = Some (100 * acc + 10 * a + b)%Z.
Proof.
  intros Ha Hb. cbn [append read_hundredths].
  change (Ascii.eqb "." ".") with true. cbv iota.
  rewrite !digit_is_digit by assumption. cbn [andb].
  now rewrite !digit_value_digit.
Qed.

Lemma round_half_even_nonneg (q : Q) : 0 <= q -> (0 <= round_half_even q)%Z.
Proof. intros H. now apply round_half_even_ge. Qed.

Lemma hundredths_nonneg (x : Q) : (0 <= round_half_even (Qabs x * 100))%Z.
Proof.
  apply round_half_even_nonneg.
  apply Qmult_le_0_compat; [apply Qabs_nonneg | discriminate].
Qed.

(** The rendering reads back as the rounded number of hundredths, with the
    sign of the number. *)
Lemma read_2f_format_2f (x : Q) :
  read_2f (format_2f x)
  = Some (if Qltb x 0 then - round_half_even (Qabs x * 100)
          else round_half_even (Qabs x * 100))%Z.
Proof.
  unfold format_2f.
  set (h := round_half_even (Qabs x * 100)).
  pose proof (hundredths_nonneg x) as Hh. fold h in Hh.
  assert (Hbody : forall tail_unused : unit,
            read_hundredths
              (decimal (h / 100) ++ "."
               ++ String (digit ((h / 10) mod 10)) (String (digit (h mod 10)) ""))%string 0
            = Some h).
  { intros _. rewrite read_decimal by (apply Z.div_pos; lia).
    rewrite read_point by (apply Z.mod_pos_bound; lia).
    f_equal.
    replace (h / 100)%Z with (h / 10 / 10)%Z by (rewrite Z.div_div by lia; reflexivity).
    pose proof (Z.div_mod h 10 ltac:(lia)).
    pose proof (Z.div_mod (h / 10) 10 ltac:(lia)). lia. }
  specialize (Hbody tt). cbn [append] in Hbody.
  destruct (Qltb x 0).
  - cbn [append read_2f]. change (Ascii.eqb "-" "-") with true. cbv iota.
    now rewrite Hbody.
  - cbn [append].
    destruct (decimal_digits (h / 100)) as [Hd Hne].
    destruct (decimal (h / 100)) as [|c s] eqn:E; [contradiction|].
    cbn [all_digits] in Hd. apply andb_prop in Hd as [Hc _].
    cbn [append read_2f].
    destruct (Ascii.eqb_spec c "-"%char) as [->|_]; [discriminate|].
    exact Hbody.
Qed.

Lemma round_half_even_error (q : Q) :
  Qabs (inject_Z (round_half_even q) - q) <= 1 # 2.
Proof.
  pose proof (round_half_even_nearest q) as H.
  apply Qabs_Qle_condition. destruct q as [n d]. cbn [Qnum Qden] in H.
  set (h := round_half_even (n # d)) in *.
  unfold Qle, Qminus, Qplus, Qopp, inject_Z. simpl. lia.
Qed.

Lemma round_half_even_tie (q : Q) :
  Qabs (inject_Z (round_half_even q) - q) == 1 # 2 ->
  Z.even (round_half_even q) = true.
Proof.
  destruct q as [n d]. unfold Qeq, Qabs, Qminus, Qplus, Qopp, inject_Z.
  cbn [Qnum Qden]. unfold round_half_even. cbn [Qnum Qden].
  pose proof (Z.div_mod n (Zpos d) ltac:(lia)) as Hdm.
  pose proof (Z.mod_pos_bound n (Zpos d) ltac:(lia)) as Hr.
  set (f := (n / Zpos d)%Z) in *. set (r := (n mod Zpos d)%Z) in *.
  destruct (Z.compare_spec (2 * r) (Zpos d)) as [He|Hl|Hg].
  - intros _. destruct (Z.even f) eqn:E; [exact E|].
    rewrite Z.even_add, E. reflexivity.
  - intros H. exfalso. simpl in H. lia.
  - intros H. exfalso. simpl in H. lia.
Qed.

(** The number of hundredths that the rendering shows is a nearest one, and
    an even one when two are nearest. *)
Lemma format_2f_nearest (x : Q) :
  exists v : Z,
    read_2f (format_2f x) = Some v
    /\ Qabs (inject_Z v / 100 - x) <= 1 # 200
    /\ (Qabs (inject_Z v / 100 - x) == 1 # 200 -> Z.even v = true).
Proof.
  set (h := round_half_even (Qabs x * 100)).
  pose proof (round_half_even_error (Qabs x * 100)) as Herr.
  pose proof (round_half_even_tie (Qabs x * 100)) as Htie.
  fold h in Herr, Htie.
  exists (if Qltb x 0 then - h else h)%Z.
  split; [apply read_2f_format_2f|].
  assert (Habs : Qabs (inject_Z (if Qltb x 0 then - h else h)%Z / 100 - x)
                 == Qabs (inject_Z h - Qabs x * 100) * (1 # 100)).
  { destruct (Qltb x 0) eqn:E.
    - apply Qltb_lt in E.
      rewrite (Qabs_neg x) by (now apply Qlt_le_weak).
      rewrite inject_Z_opp.
      setoid_replace (- inject_Z h / 100 - x)
        with (- ((inject_Z h - - x * 100) * (1 # 100))) using relation Qeq by field.
      rewrite Qabs_opp, Qabs_Qmult. reflexivity.
    - apply Qltb_ge in E.
      rewrite (Qabs_pos x) by exact E.
      setoid_replace (inject_Z h / 100 - x)
        with ((inject_Z h - x * 100) * (1 # 100)) using relation Qeq by field.
      rewrite Qabs_Qmult. reflexivity. }
  split.
  - rewrite Habs. lra.
  - rewrite Habs. intros H.
    assert (Hh : Z.even h = true) by (apply Htie; lra).
    destruct (Qltb x 0); [now rewrite Z.even_opp | exact Hh].
Qed.

Lemma format_2f_sign (x : Q) :
  String.get 0 (format_2f x) = Some "-"%char <-> x < 0.
Proof.
  unfold format_2f. set (h := round_half_even (Qabs x * 100)).
  destruct (Qltb x 0) eqn:E.
  - apply Qltb_lt in E. cbn [append String.get]. tauto.
  - apply Qltb_ge in E. cbn [append].
    destruct (decimal_digits (h / 100)) as [Hd Hne].
    destruct (decimal (h / 100)) as [|c s] eqn:Ed; [contradiction|].
    cbn [all_digits] in Hd. apply andb_prop in Hd as [Hc _].
    cbn [append String.get]. split.
    + intros H. injection H as ->. discriminate.
    + intros H. lra.
Qed.

(** C8: [format_combined_segments] renders one line per turn, of the form
    ["[start-end] speaker: text"], where start and end are written with
    exactly two decimals: an optional sign, at least one digit, a point, two
    digits, which read back as a number of hundredths nearest to the
    timestamp (an even one when two are nearest), with a minus sign exactly
    for a negative timestamp.  The lines are joined by a single newline and
    nothing follows the last line.  The turns [{0, 2, "S1", "hi there"}],
    [{2, 3, "S2", "bye"}] render as the two lines of the specification, and
    timestamps with more than two decimals are rounded. *)
Theorem C8_format_combined_segments :
  format_combined_segments [] = ""%string
  /\ (forall turns turn,
        format_combined_segments (turns ++ [turn])
        = ((match turns with
            | [] => ""
            | _ :: _ => format_combined_segments turns ++ newline
            end)
           ++ "[" ++ format_2f (seg_start turn) ++ "-" ++ format_2f (seg_end turn)
           ++ "] " ++ seg_speaker turn ++ ": " ++ seg_text turn)%string)
  /\ (forall x : Q, exists (sign int : string) (d1 d2 : ascii),
        format_2f x = (sign ++ int ++ "." ++ String d1 (String d2 ""))%string
        /\ (sign = ""%string \/ sign = "-"%string)
        /\ int <> ""%string
        /\ all_digits int = true
        /\ is_digit d1 = true /\ is_digit d2 = true)
  /\ (forall x : Q, exists v : Z,
        read_2f (format_2f x) = Some v
        /\ Qabs (inject_Z v / 100 - x) <= 1 # 200
        /\ (Qabs (inject_Z v / 100 - x) == 1 # 200 -> Z.even v = true))
  /\ (forall x : Q, String.get 0 (format_2f x) = Some "-"%char <-> x < 0)
  /\ format_combined_segments [mkSeg 0 2 "S1" "hi there"; mkSeg 2 3 "S2" "bye"]
     = ("[0.00-2.00] S1: hi there" ++ String (ascii_of_nat 10) "[2.00-3.00] S2: bye")%string
  /\ format_combined_segments
       [mkSeg (9 # 8) (19 # 8) "S1" "a"; mkSeg (- (1 # 1000)) (1234567 # 1000) "S2" "b"]
     = ("[1.12-2.38] S1: a" ++ String (ascii_of_nat 10) "[-0.00-1234.57] S2: b")%string.
Proof.
  split; [reflexivity|]. split; [|split; [|split; [|split; [|split]]]].
  - intros turns turn. unfold format_combined_segments.
    rewrite List.map_app. cbn [List.map]. rewrite concat_snoc.
    destruct turns; reflexivity.
  - apply format_2f_shape.
  - apply format_2f_nearest.
  - apply format_2f_sign.
  - reflexivity.
  - reflexivity.
Qed.

(** ** The merge loop on the store builds the same turns *)

Lemma deref_alter_notin (f : Segment -> Segment) (p : nat) (heap : list Segment)
    (refs : list nat) :
  p ∉ refs -> deref (alter f p heap) refs = deref heap refs.
Proof.
  unfold deref. induction refs as [|r refs IH]; intros Hp; [reflexivity|].
  apply not_elem_of_cons in Hp as [Hne Hp]. simpl.
  rewrite list_lookup_alter_ne by done.
  destruct (heap !! r); [f_equal|]; exact (IH Hp).
Qed.

Lemma deref_snoc (heap : list Segment) (refs : list nat) (r : nat) (seg : Segment) :
  heap !! r = Some seg -> deref heap (refs ++ [r]) = deref heap refs ++ [seg].
Proof. unfold deref. rewrite omap_app. simpl. now intros ->. Qed.

Lemma add_text_set_end (prev seg : Segment) :
  add_text (" " ++ seg_text seg) (set_end (seg_end seg) prev) = extend prev seg.
Proof. reflexivity. Qed.

Lemma store_inv_init (unified : list Segment) : store_inv [] unified unified [].
Proof.
  unfold store_inv. simpl. repeat split.
  - lia.
  - constructor.
  - constructor.
Qed.

Lemma merge_step_store_inv (done todo heap : list Segment) (merged : list nat)
    (s : Segment) :
  store_inv done (s :: todo) heap merged ->
  exists heap' merged',
    merge_step_store (heap, merged) (length done) = (heap', merged')
    /\ store_inv (done ++ [s]) todo heap' merged'.
Proof.
  intros (Hdrop & Hlen & Hlt & Hnd & Hder).
  set (k := length done) in *.
  assert (Hk : heap !! k = Some s).
  { rewrite <- (Nat.add_0_r k), <- lookup_drop, Hdrop. reflexivity. }
  assert (Htodo : drop (S k) heap = todo).
  { rewrite (drop_S _ _ _ Hk) in Hdrop. now injection Hdrop. }
  assert (Hlen' : (S k <= length heap)%nat).
  { apply lookup_lt_Some in Hk. lia. }
  assert (Hk' : length (done ++ [s]) = S k).
  { rewrite length_app. simpl. lia. }
  unfold merge_step_store.
  destruct (last merged) as [p|] eqn:Hlast.
  - apply last_Some in Hlast as [refs ->].
    apply Forall_app in Hlt as [Hlt Hp]. apply Forall_inv in Hp.
    cbv beta in Hp.
    apply NoDup_app in Hnd as (Hnd & Hnotin & _).
    assert (Hpnot : p ∉ refs).
    { intros Hin. apply (Hnotin p Hin). now left. }
    destruct (lookup_lt_is_Some_2 heap p ltac:(lia)) as [prev Hprev].
    rewrite (deref_snoc _ _ _ _ Hprev) in Hder.
    rewrite Hk, Hprev.
    destruct (String.eqb (seg_speaker s) (seg_speaker prev)) eqn:Hspk.
    + rewrite list_lookup_alter_ne by lia. rewrite Hk.
      eexists _, _. split; [reflexivity|].
      unfold store_inv. rewrite Hk', !length_alter.
      rewrite !drop_alter_lt by lia.
      split; [exact Htodo|]. split; [exact Hlen'|]. split; [|split].
      * apply Forall_app. split.
        -- eapply Forall_impl; [exact Hlt|]. simpl. lia.
        -- apply Forall_singleton. lia.
      * apply NoDup_app. repeat split; [exact Hnd | exact Hnotin | apply NoDup_singleton].
      * rewrite merge_snoc, <- Hder, merge_step_snoc, Hspk.
        assert (Hp2 : alter (add_text (" " ++ seg_text s))%string p
                        (alter (set_end (seg_end s)) p heap) !! p
                      = Some (extend prev s)).
        { rewrite !list_lookup_alter_eq, Hprev. reflexivity. }
        rewrite (deref_snoc _ _ _ _ Hp2).
        now rewrite !deref_alter_notin.
    + eexists _, _. split; [reflexivity|].
      unfold store_inv. rewrite Hk'.
      split; [exact Htodo|]. split; [exact Hlen'|]. split; [|split].
      * apply Forall_app. split.
        -- apply Forall_app. split.
           ++ eapply Forall_impl; [exact Hlt|]. simpl. lia.
           ++ apply Forall_singleton. lia.
        -- apply Forall_singleton. lia.
      * apply NoDup_app. repeat split.
        -- apply NoDup_app. repeat split;
             [exact Hnd | exact Hnotin | apply NoDup_singleton].
        -- intros x Hx Hx'. apply list_elem_of_singleton in Hx'. subst x.
           apply elem_of_app in Hx as [Hx|Hx].
           ++ rewrite Forall_forall in Hlt. apply Hlt in Hx. cbv beta in Hx. lia.
           ++ apply list_elem_of_singleton in Hx. lia.
        -- apply NoDup_singleton.
      * rewrite (deref_snoc _ _ _ _ Hk), (deref_snoc _ _ _ _ Hprev).
        rewrite merge_snoc, <- Hder, merge_step_snoc, Hspk.
        now rewrite <- app_assoc.
  - apply last_None in Hlast. subst merged.
    eexists _, _. split; [reflexivity|].
    unfold store_inv. rewrite Hk'.
    split; [exact Htodo|]. split; [exact Hlen'|]. split; [|split].
    + apply Forall_singleton. lia.
    + apply NoDup_singleton.
    + rewrite merge_snoc, <- Hder.
      change (deref heap [] ) with (@nil Segment).
      rewrite (deref_snoc heap [] k s Hk). reflexivity.
Qed.

Lemma merge_store_loop (todo done heap : list Segment) (merged : list nat) :
  store_inv done todo heap merged ->
  exists heap' merged',
    fold_left merge_step_store (seq (length done) (length todo)) (heap, merged)
    = (heap', merged')
    /\ deref heap' merged' = merge (done ++ todo).
Proof.
  revert done heap merged.
  induction todo as [|s todo IH]; intros done heap merged Hinv.
  - exists heap, merged. split; [reflexivity|].
    rewrite app_nil_r. apply Hinv.
  - destruct (merge_step_store_inv _ _ _ _ _ Hinv) as (heap1 & merged1 & Hstep & Hinv1).
    destruct (IH _ _ _ Hinv1) as (heap' & merged' & Hloop & Hres).
    exists heap', merged'. split.
    + cbn [length seq fold_left]. rewrite Hstep.
      rewrite length_app, Nat.add_1_r in Hloop. exact Hloop.
    + rewrite <- app_assoc in Hres. exact Hres.
Qed.

(** The sharing of dictionaries between [unified_transcript] and
    [merged_transcript] does not show in the result: the loop on the store
    returns the turns of the loop on values. *)
Theorem merge_store_merge (unified : list Segment) :
  merge_store unified = merge unified.
Proof.
  unfold merge_store.
  destruct (merge_store_loop unified [] unified [] (store_inv_init unified))
    as (heap' & merged' & Hloop & Hres).
  simpl in Hloop. rewrite Hloop. exact Hres.
Qed.

(** * Further properties of the alignment *)

Lemma filter_nil_existsb {A : Type} (f : A -> bool) (l : list A) :
  List.filter f l = [] <-> existsb f l = false.
Proof.
  induction l as [|a l IH]; simpl; [tauto|].
  destruct (f a); simpl; [split; discriminate | exact IH].
Qed.

Lemma existsb_false_In {A : Type} (f : A -> bool) (l : list A) :
  (forall x, In x l -> f x = false) -> existsb f l = false.
Proof.
  induction l as [|a l IH]; intros H; simpl; [reflexivity|].
  rewrite (H a) by now left. apply IH. intros x Hx. apply H. now right.
Qed.

Lemma filter_filter_implied {A : Type} (f g : A -> bool) (l : list A) :
  (forall x, f x = true -> g x = true) ->
  List.filter f (List.filter g l) = List.filter f l.
Proof.
  intros Himp. induction l as [|a l IH]; simpl; [reflexivity|].
  destruct (g a) eqn:Hg; simpl.
  - now rewrite IH.
  - destruct (f a) eqn:Hf; [|exact IH].
    apply Himp in Hf. congruence.
Qed.

(** The tolerance never changes an attribution.  For a tolerance [>= 0], a
    transcription segment that truly overlaps some diarization segment
    yields its overlap segments, one for each diarization segment it
    overlaps, whatever the tolerance; for a segment that overlaps none, the
    tolerance only decides between the UNKNOWN segment (no diarization
    segment passes the soft test: every gap, as the floats compute it, is
    at least the tolerance) and no segment at all. *)
Theorem segment_output_by_cases (t : TransSegment) (D : list DiaSegment) (tol : Q) :
  0 <= tol ->
  segment_output t D tol
  = if existsb (hard_overlap t) D
    then List.map (overlap_segment t) (List.filter (hard_overlap t) D)
    else if existsb (soft_match (trans_start t) (trans_end t) tol) D
         then []
         else [unknown_segment t].
Proof.
  intros Htol.
  assert (Hff : List.filter (hard_overlap t) (candidates t D tol)
                = List.filter (hard_overlap t) D).
  { apply filter_filter_implied. intros d. now apply hard_overlap_soft_match. }
  destruct (candidates t D tol) as [|c cs] eqn:E.
  - rewrite segment_output_unknown by exact E.
    simpl in Hff. symmetry in Hff. apply filter_nil_existsb in Hff. rewrite Hff.
    unfold candidates, overlapping_segments in E.
    apply filter_nil_existsb in E. now rewrite E.
  - rewrite segment_output_overlaps by (rewrite E; discriminate).
    rewrite overlap_output_eq, E, Hff.
    destruct (existsb (hard_overlap t) D) eqn:Hh; [reflexivity|].
    apply filter_nil_existsb in Hh. rewrite Hh.
    destruct (existsb (soft_match (trans_start t) (trans_end t) tol) D) eqn:Hs;
      [reflexivity|].
    apply filter_nil_existsb in Hs.
    unfold candidates, overlapping_segments in E. rewrite Hs in E. discriminate.
Qed.

Lemma segment_output_by_cases_witness :
  segment_output (mkTrans 0 4 "hello") [mkDia 1 2 "S1"; mkDia 9 10 "S2"; mkDia 3 5 "S3"] (1#2)
  = [mkSeg 1 2 "S1" "hello"; mkSeg 3 4 "S3" "hello"].
Proof.
  apply (segment_output_by_cases (mkTrans 0 4 "hello")
           [mkDia 1 2 "S1"; mkDia 9 10 "S2"; mkDia 3 5 "S3"] (1#2)
           ltac:(unfold Qle; simpl; lia)).
Defined.

(** When no diarization segment is within the tolerance of any transcription
    segment (every gap is [>=] the tolerance, which is a float), the whole
    transcription comes out as UNKNOWN segments with spans and texts
    unchanged, one per transcription segment and in order: the rounding of
    the subtraction never brings a gap below a tolerance it was not below. *)
Theorem unified_transcript_no_match (T : list TransSegment) (D : list DiaSegment) (tol : Q) :
  representable53 tol ->
  (forall t d, In t T -> In d D ->
     tol <= py_max (dia_start d) (trans_start t) - py_min (dia_end d) (trans_end t)) ->
  unified_transcript T D tol = List.map unknown_segment T.
Proof.
  intros Htol Hgap. rewrite unified_transcript_flat_map.
  induction T as [|t T IH]; [reflexivity|].
  cbn [flat_map List.map]. rewrite IH.
  - rewrite segment_output_unknown; [reflexivity|].
    unfold candidates, overlapping_segments. apply filter_nil_existsb.
    apply existsb_false_In. intros d Hd.
    unfold soft_match, fsub. apply Qltb_ge. apply round53_ge; [exact Htol|].
    apply Hgap; [now left | exact Hd].
  - intros t' d Ht' Hd. apply Hgap; [now right | exact Hd].
Qed.

Lemma unified_transcript_no_match_witness :
  unified_transcript [mkTrans 0 1 "x"] [mkDia 5 6 "S1"] (1#2)
  = [mkSeg 0 1 "UNKNOWN" "x"].
Proof.
  apply (unified_transcript_no_match [mkTrans 0 1 "x"] [mkDia 5 6 "S1"] (1#2)).
  - exists 1%Z, (-1)%Z. split; [reflexivity | reflexivity].
  - intros t d [<-|[]] [<-|[]]. unfold Qle. simpl. lia.
Defined.

Lemma py_max_l (a b : Q) : a <= py_max a b.
Proof.
  unfold py_max. destruct (Qltb a b) eqn:E.
  - apply Qltb_lt in E. now apply Qlt_le_weak.
  - apply Qle_refl.
Qed.

Lemma py_min_l (a b : Q) : py_min a b <= a.
Proof.
  unfold py_min. destruct (Qltb b a) eqn:E.
  - apply Qltb_lt in E. now apply Qlt_le_weak.
  - apply Qle_refl.
Qed.

(** Every segment of the unified transcript lies within the transcription
    segment it comes from and carries its whole text; it is the UNKNOWN
    segment of that transcription segment, or it also lies within a
    diarization segment of the input, carries its speaker and has a positive
    length. *)
Theorem unified_segment_within_sources (T : list TransSegment) (D : list DiaSegment)
    (tol : Q) (seg : Segment) :
  In seg (unified_transcript T D tol) ->
  exists t, In t T
    /\ trans_start t <= seg_start seg /\ seg_end seg <= trans_end t
    /\ seg_text seg = trans_text t
    /\ (seg = unknown_segment t
        \/ exists d, In d D
             /\ dia_start d <= seg_start seg /\ seg_end seg <= dia_end d
             /\ seg_speaker seg = dia_speaker d
             /\ seg_start seg < seg_end seg).
Proof.
  intros Hseg. apply in_unified_transcript in Hseg as (t & Ht & Hseg).
  exists t. split; [exact Ht|].
  apply in_segment_output in Hseg as [[_ ->]|Hseg].
  - simpl. repeat split; try apply Qle_refl. now left.
  - apply in_overlap_output in Hseg as (d & Hd & _ & Hhard & ->).
    cbn [overlap_segment seg_start seg_end seg_text seg_speaker].
    split; [apply py_max_r|]. split; [apply py_min_r|]. split; [reflexivity|].
    right. exists d. split; [exact Hd|].
    split; [apply py_max_l|]. split; [apply py_min_l|]. split; [reflexivity|].
    now apply hard_overlap_true.
Qed.

Lemma unified_segment_within_sources_witness :
  exists t, In t [mkTrans 0 2 "hello"]
    /\ trans_start t <= seg_start (mkSeg 1 2 "S1" "hello")
    /\ seg_end (mkSeg 1 2 "S1" "hello") <= trans_end t
    /\ seg_text (mkSeg 1 2 "S1" "hello") = trans_text t
    /\ (mkSeg 1 2 "S1" "hello" = unknown_segment t
        \/ exists d, In d [mkDia 1 3 "S1"]
             /\ dia_start d <= seg_start (mkSeg 1 2 "S1" "hello")
             /\ seg_end (mkSeg 1 2 "S1" "hello") <= dia_end d
             /\ seg_speaker (mkSeg 1 2 "S1" "hello") = dia_speaker d
             /\ seg_start (mkSeg 1 2 "S1" "hello") < seg_end (mkSeg 1 2 "S1" "hello")).
Proof.
  apply (unified_segment_within_sources
           [mkTrans 0 2 "hello"] [mkDia 1 3 "S1"] (1#2) (mkSeg 1 2 "S1" "hello")).
  left. reflexivity.
Defined.

Lemma hard_overlap_trans_empty (t : TransSegment) (d : DiaSegment) :
  trans_end t <= trans_start t -> hard_overlap t d = false.
Proof.
  intros H. apply hard_overlap_false.
  pose proof (py_min_r (dia_end d) (trans_end t)).
  pose proof (py_max_r (dia_start d) (trans_start t)). lra.
Qed.

(** A transcription segment of length zero ([end = start], a valid span) is
    never attributed to a speaker, not even by a diarization segment that
    contains its instant: it comes out as the UNKNOWN segment or, when some
    diarization segment is within the tolerance, as nothing. *)
Theorem zero_length_segment_never_attributed (t : TransSegment)
    (D : list DiaSegment) (tol : Q) :
  trans_end t == trans_start t ->
  segment_output t D tol = [unknown_segment t] \/ segment_output t D tol = [].
Proof.
  intros H. destruct (candidates t D tol) as [|d ds] eqn:E.
  - left. now apply segment_output_unknown.
  - right. rewrite segment_output_overlaps by (rewrite E; discriminate).
    rewrite overlap_output_eq.
    replace (List.filter (hard_overlap t) (candidates t D tol)) with (@nil DiaSegment);
      [reflexivity|].
    symmetry. apply filter_nil_existsb. apply existsb_false_In.
    intros x _. apply hard_overlap_trans_empty. rewrite H. apply Qle_refl.
Qed.

Lemma zero_length_segment_never_attributed_witness :
  segment_output (mkTrans 1 1 "uh") [mkDia 0 2 "S1"] (1#2) = [unknown_segment (mkTrans 1 1 "uh")]
  \/ segment_output (mkTrans 1 1 "uh") [mkDia 0 2 "S1"] (1#2) = [].
Proof.
  apply (zero_length_segment_never_attributed (mkTrans 1 1 "uh") [mkDia 0 2 "S1"] (1#2)).
  reflexivity.
Defined.

(** Segments that only touch do not overlap: a transcription segment that
    ends where every diarization segment starts, or starts where it ends (or
    is apart from it), is never attributed; it comes out UNKNOWN or, when one
    of them is within the tolerance, as nothing. *)
Theorem touching_segments_not_attributed (t : TransSegment)
    (D : list DiaSegment) (tol : Q) :
  (forall d, In d D -> trans_end t <= dia_start d \/ dia_end d <= trans_start t) ->
  segment_output t D tol = [unknown_segment t] \/ segment_output t D tol = [].
Proof.
  intros H. destruct (candidates t D tol) as [|c cs] eqn:E.
  - left. now apply segment_output_unknown.
  - right. rewrite segment_output_overlaps by (rewrite E; discriminate).
    rewrite overlap_output_eq.
    replace (List.filter (hard_overlap t) (candidates t D tol)) with (@nil DiaSegment);
      [reflexivity|].
    symmetry. apply filter_nil_existsb. apply existsb_false_In.
    intros d Hd. apply hard_overlap_false.
    unfold candidates, overlapping_segments in Hd.
    apply List.filter_In in Hd as [Hd _].
    pose proof (py_min_r (dia_end d) (trans_end t)).
    pose proof (py_min_l (dia_end d) (trans_end t)).
    pose proof (py_max_r (dia_start d) (trans_start t)).
    pose proof (py_max_l (dia_start d) (trans_start t)).
    destruct (H d Hd); lra.
Qed.

Lemma touching_segments_not_attributed_witness :
  segment_output (mkTrans 0 1 "a") [mkDia 1 2 "S1"] (1#2) = [unknown_segment (mkTrans 0 1 "a")]
  \/ segment_output (mkTrans 0 1 "a") [mkDia 1 2 "S1"] (1#2) = [].
Proof.
  apply (touching_segments_not_attributed (mkTrans 0 1 "a") [mkDia 1 2 "S1"] (1#2)).
  intros d [<-|[]]. left. unfold Qle. simpl. lia.
Defined.

Lemma segment_output_length (t : TransSegment) (D : list DiaSegment) (tol : Q) :
  (length (segment_output t D tol) <= Nat.max 1 (length D))%nat.
Proof.
  destruct (candidates t D tol) as [|c cs] eqn:E.
  - rewrite segment_output_unknown by exact E. simpl. lia.
  - rewrite segment_output_overlaps by (rewrite E; discriminate).
    rewrite overlap_output_eq, length_map.
    pose proof (List.filter_length_le (hard_overlap t) (candidates t D tol)).
    pose proof (List.filter_length_le
                  (soft_match (trans_start t) (trans_end t) tol) D).
    unfold candidates, overlapping_segments in *. lia.
Qed.

(** The size of the output is bounded: at most one segment per pair of a
    transcription segment and a diarization segment, and one per
    transcription segment when the diarization is empty. *)
Theorem unified_transcript_length (T : list TransSegment) (D : list DiaSegment) (tol : Q) :
  (length (unified_transcript T D tol) <= length T * Nat.max 1 (length D))%nat.
Proof.
  rewrite unified_transcript_flat_map.
  induction T as [|t T IH]; simpl; [lia|].
  rewrite length_app. pose proof (segment_output_length t D tol). lia.
Qed.

(** * Further properties of the merge *)

Lemma spec_merge_from_head (rest : list Segment) (current : Segment) :
  exists h tl, spec_merge_from current rest = h :: tl
    /\ seg_speaker h = seg_speaker current /\ seg_start h = seg_start current.
Proof.
  revert current. induction rest as [|s rest IH]; intros current; simpl.
  - exists current, []. auto.
  - destruct (String.eqb _ _).
    + destruct (IH (extend current s)) as (h & tl & -> & Hs & Hb).
      exists h, tl. auto.
    + exists current, (spec_merge_from s rest). auto.
Qed.

Lemma merge_nil_iff (l : list Segment) : merge l = [] <-> l = [].
Proof.
  rewrite merge_spec_merge. destruct l as [|s rest]; [tauto|].
  cbn [spec_merge]. destruct (spec_merge_from_head rest s) as (h & tl & -> & _).
  split; discriminate.
Qed.

Lemma spec_merge_from_length (rest : list Segment) (current : Segment) :
  (length (spec_merge_from current rest) <= S (length rest))%nat.
Proof.
  revert current. induction rest as [|s rest IH]; intros current; simpl; [lia|].
  destruct (String.eqb _ _).
  - specialize (IH (extend current s)). lia.
  - specialize (IH s). simpl. lia.
Qed.

(** The merge produces at least one turn for a non-empty input, and never
    more turns than there are segments. *)
Theorem merge_length (l : list Segment) :
  (length (merge l) <= length l)%nat /\ (merge l = [] <-> l = []).
Proof.
  split; [|apply merge_nil_iff].
  rewrite merge_spec_merge. destruct l as [|s rest]; [simpl; lia|].
  apply spec_merge_from_length.
Qed.

Lemma spec_merge_from_distinct (rest : list Segment) (current : Segment) :
  distinct_neighbours (spec_merge_from current rest).
Proof.
  revert current. induction rest as [|s rest IH]; intros current.
  - exact I.
  - cbn [spec_merge_from].
    destruct (String.eqb (seg_speaker s) (seg_speaker current)) eqn:E.
    + apply IH.
    + specialize (IH s).
      destruct (spec_merge_from_head rest s) as (h & tl & Heq & Hs & _).
      rewrite Heq in *. split; [|exact IH].
      rewrite Hs. apply String.eqb_neq in E. congruence.
Qed.

Lemma distinct_neighbours_lookup (l : list Segment) (i : nat) (a b : Segment) :
  distinct_neighbours l -> l !! i = Some a -> l !! S i = Some b ->
  seg_speaker a <> seg_speaker b.
Proof.
  revert i. induction l as [|x l IH]; intros i Hd Ha Hb; [discriminate|].
  destruct l as [|y l]; [discriminate|]. destruct Hd as [Hxy Hd].
  destruct i as [|i].
  - injection Ha as <-. injection Hb as <-. exact Hxy.
  - apply (IH i Hd Ha Hb).
Qed.

(** In the merged transcript no two consecutive turns have the same speaker:
    every run of one speaker has become one turn. *)
Theorem merge_no_equal_neighbours (l : list Segment) (i : nat) (a b : Segment) :
  merge l !! i = Some a -> merge l !! S i = Some b ->
  seg_speaker a <> seg_speaker b.
Proof.
  apply distinct_neighbours_lookup.
  rewrite merge_spec_merge. destruct l as [|s rest]; [exact I|].
  apply spec_merge_from_distinct.
Qed.

Lemma merge_no_equal_neighbours_witness :
  seg_speaker (mkSeg 0 2 "S1" "hi there") <> seg_speaker (mkSeg 2 3 "S2" "bye").
Proof.
  apply (merge_no_equal_neighbours
           [mkSeg 0 1 "S1" "hi"; mkSeg 1 2 "S1" "there"; mkSeg 2 3 "S2" "bye"] 0%nat).
  - reflexivity.
  - reflexivity.
Defined.

Lemma spec_merge_from_fixed (rest : list Segment) (current : Segment) :
  distinct_neighbours (current :: rest) ->
  spec_merge_from current rest = current :: rest.
Proof.
  revert current. induction rest as [|s rest IH]; intros current Hd; [reflexivity|].
  destruct Hd as [Hne Hd]. cbn [spec_merge_from].
  replace (String.eqb (seg_speaker s) (seg_speaker current)) with false.
  - now rewrite IH.
  - symmetry. apply String.eqb_neq. congruence.
Qed.

Lemma merge_merge (l : list Segment) : merge (merge l) = merge l.
Proof.
  rewrite (merge_spec_merge (merge l)).
  assert (Hd : distinct_neighbours (merge l)).
  { rewrite merge_spec_merge. destruct l as [|s rest]; [exact I|].
    apply spec_merge_from_distinct. }
  destruct (merge l) as [|h tl]; [reflexivity|].
  cbn [spec_merge]. now apply spec_merge_from_fixed.
Qed.

(** Merging is idempotent: a merged transcript is left as it is by another
    merge. *)
Theorem merge_idempotent (l : list Segment) : merge (merge l) = merge l.
Proof.
  assert (Hd : distinct_neighbours (merge l)).
  { rewrite merge_spec_merge. destruct l as [|s rest]; [exact I|].
    apply spec_merge_from_distinct. }
  rewrite (merge_spec_merge (merge l)).
  destruct (merge l) as [|h tl]; [reflexivity|].
  cbn [spec_merge]. now apply spec_merge_from_fixed.
Qed.

Lemma extend_extend (current s x : Segment) :
  extend (extend current s) x = extend current (extend s x).
Proof.
  unfold extend. cbn [seg_start seg_end seg_speaker seg_text].
  f_equal. now rewrite !string_app_assoc.
Qed.

Lemma spec_merge_from_absorb (rest : list Segment) (current s : Segment) :
  spec_merge_from current (spec_merge_from s rest) = spec_merge_from current (s :: rest).
Proof.
  revert current s. induction rest as [|x rest IH]; intros current s; [reflexivity|].
  cbn [spec_merge_from].
  destruct (String.eqb (seg_speaker x) (seg_speaker s)) eqn:Exs.
  - rewrite IH. cbn [spec_merge_from extend seg_speaker].
    destruct (String.eqb (seg_speaker s) (seg_speaker current)) eqn:Esc;
      cbn [spec_merge_from extend seg_speaker].
    + apply String.eqb_eq in Esc. rewrite <- Esc, ?Exs.
      now rewrite extend_extend.
    + now rewrite ?Exs.
  - cbn [spec_merge_from].
    destruct (String.eqb (seg_speaker s) (seg_speaker current)) eqn:Esc;
      rewrite IH; cbn [spec_merge_from extend seg_speaker].
    + apply String.eqb_eq in Esc. now rewrite <- Esc, ?Exs.
    + now rewrite ?Exs.
Qed.

Lemma merge_loop_merged (l acc : list Segment) :
  fold_left merge_step (merge l) acc = fold_left merge_step l acc.
Proof.
  destruct l as [|s rest]; [reflexivity|].
  destruct (last acc) as [current|] eqn:E.
  - apply last_Some in E as [turns ->].
    rewrite !merge_loop_from, merge_spec_merge. cbn [spec_merge].
    now rewrite spec_merge_from_absorb.
  - apply last_None in E. subst acc.
    change (merge (merge (s :: rest)) = merge (s :: rest)). apply merge_merge.
Qed.

(** A transcript can be merged in pieces: merging the concatenation of two
    merged pieces gives the merge of the whole. *)
Theorem merge_app_merge (l1 l2 : list Segment) :
  merge (merge l1 ++ merge l2) = merge (l1 ++ l2).
Proof.
  unfold merge at 1. rewrite fold_left_app.
  change (fold_left merge_step (merge l1) []) with (merge (merge l1)).
  rewrite merge_merge, merge_loop_merged.
  unfold merge at 2. now rewrite fold_left_app.
Qed.

Lemma spec_merge_from_text (rest : list Segment) (current : Segment) :
  String.concat " " (List.map seg_text (spec_merge_from current rest))
  = String.concat " " (seg_text current :: List.map seg_text rest).
Proof.
  revert current. induction rest as [|s rest IH]; intros current; [reflexivity|].
  cbn [spec_merge_from]. destruct (String.eqb _ _).
  - rewrite IH. cbn [extend seg_text List.map].
    now rewrite concat_space_cons.
  - destruct (spec_merge_from_head rest s) as (h & tl & Heq & _).
    specialize (IH s). rewrite Heq in *.
    cbn [List.map] in *.
    change (String.concat " " (seg_text current :: seg_text h :: List.map seg_text tl))
      with (seg_text current ++ " "
            ++ String.concat " " (seg_text h :: List.map seg_text tl))%string.
    now rewrite IH.
Qed.

(** The merge loses no text and keeps its order: the texts of the turns,
    joined by spaces, are the texts of the segments, joined by spaces. *)
Theorem merge_preserves_text (l : list Segment) :
  String.concat " " (List.map seg_text (merge l))
  = String.concat " " (List.map seg_text l).
Proof.
  rewrite merge_spec_merge. destruct l as [|s rest]; [reflexivity|].
  apply spec_merge_from_text.
Qed.

Lemma spec_merge_from_last_end (rest : list Segment) (current : Segment) :
  exists turns open, spec_merge_from current rest = turns ++ [open]
    /\ seg_end open = List.last (List.map seg_end rest) (seg_end current)
    /\ seg_speaker open = List.last (List.map seg_speaker rest) (seg_speaker current).
Proof.
  revert current. induction rest as [|s rest IH]; intros current.
  - exists [], current. auto.
  - cbn [spec_merge_from List.map]. rewrite !last_cons_shift.
    destruct (String.eqb (seg_speaker s) (seg_speaker current)) eqn:E.
    + destruct (IH (extend current s)) as (turns & open & -> & He & Hs).
      exists turns, open. split; [reflexivity|]. split; [exact He|].
      rewrite Hs. cbn [extend seg_speaker]. apply String.eqb_eq in E. now rewrite E.
    + destruct (IH s) as (turns & open & -> & He & Hs).
      exists (current :: turns), open. auto.
Qed.

(** The merged transcript spans what the segments span: its first turn has
    the start and the speaker of the first segment, its last turn has the
    end and the speaker of the last segment. *)
Theorem merge_endpoints (l : list Segment) (a b : Segment) :
  head l = Some a -> last l = Some b ->
  exists t1 t2, head (merge l) = Some t1 /\ last (merge l) = Some t2
    /\ seg_start t1 = seg_start a /\ seg_speaker t1 = seg_speaker a
    /\ seg_end t2 = seg_end b /\ seg_speaker t2 = seg_speaker b.
Proof.
  intros Ha Hb. rewrite merge_spec_merge.
  destruct l as [|s rest]; [discriminate|]. injection Ha as ->.
  cbn [spec_merge].
  destruct (spec_merge_from_head rest a) as (h & tl & Hh & Hhs & Hhb).
  destruct (spec_merge_from_last_end rest a) as (turns & open & Ho & Hoe & Hos).
  exists h, open. rewrite Hh at 1. rewrite Ho, last_snoc.
  repeat split; try assumption.
  - rewrite Hoe, <- (last_cons_shift _ _ (seg_end a)).
    change (seg_end a :: List.map seg_end rest) with (List.map seg_end (a :: rest)).
    now apply last_map_Some.
  - rewrite Hos, <- (last_cons_shift _ _ (seg_speaker a)).
    change (seg_speaker a :: List.map seg_speaker rest)
      with (List.map seg_speaker (a :: rest)).
    now apply last_map_Some.
Qed.

Lemma merge_endpoints_witness :
  exists t1 t2,
    head (merge [mkSeg 0 1 "S1" "hi"; mkSeg 1 2 "S1" "there"; mkSeg 2 3 "S2" "bye"]) = Some t1
    /\ last (merge [mkSeg 0 1 "S1" "hi"; mkSeg 1 2 "S1" "there"; mkSeg 2 3 "S2" "bye"]) = Some t2
    /\ seg_start t1 = 0 /\ seg_speaker t1 = "S1"%string
    /\ seg_end t2 = 3 /\ seg_speaker t2 = "S2"%string.
Proof.
  apply (merge_endpoints
           [mkSeg 0 1 "S1" "hi"; mkSeg 1 2 "S1" "there"; mkSeg 2 3 "S2" "bye"]
           (mkSeg 0 1 "S1" "hi") (mkSeg 2 3 "S2" "bye")).
  - reflexivity.
  - reflexivity.
Defined.

(** A property of segments that extending a turn keeps holds of the turns
    when it holds of the segments. *)
Lemma spec_merge_from_Forall (P : Segment -> Prop) (rest : list Segment) (current : Segment) :
  (forall a b, P a -> P (extend a b)) ->
  P current -> Forall P rest -> Forall P (spec_merge_from current rest).
Proof.
  intros Hext. revert current.
  induction rest as [|s rest IH]; intros current Hc Hrest.
  - now repeat constructor.
  - inversion Hrest; subst. cbn [spec_merge_from]. destruct (String.eqb _ _).
    + apply IH; [now apply Hext | assumption].
    + constructor; [assumption | now apply IH].
Qed.

Lemma merge_Forall (P : Segment -> Prop) (l : list Segment) :
  (forall a b, P a -> P (extend a b)) -> Forall P l -> Forall P (merge l).
Proof.
  intros Hext Hl. rewrite merge_spec_merge. destruct l as [|s rest]; [constructor|].
  inversion Hl; subst. now apply spec_merge_from_Forall.
Qed.

(** The call invents no speaker: the speaker of every turn it returns is
    UNKNOWN or the label of a diarization segment of the input. *)
Theorem turns_speakers_from_input (T : list TransSegment) (D : list DiaSegment)
    (tol : Q) (turns : list Segment) :
  map_transcription_to_diarization T D tol = Returned turns ->
  Forall (fun turn => seg_speaker turn = "UNKNOWN"%string
                      \/ exists d, In d D /\ seg_speaker turn = dia_speaker d) turns.
Proof.
  unfold map_transcription_to_diarization. intros H. injection H as <-.
  apply merge_Forall.
  - intros a b Ha. exact Ha.
  - apply List.Forall_forall. intros seg Hseg.
    apply in_unified_transcript in Hseg as (t & _ & Hseg).
    apply in_segment_output in Hseg as [[_ ->]|Hseg].
    + now left.
    + apply in_overlap_output in Hseg as (d & Hd & _ & _ & ->).
      right. exists d. auto.
Qed.

Lemma turns_speakers_from_input_witness :
  Forall (fun turn => seg_speaker turn = "UNKNOWN"%string
                      \/ exists d, In d [mkDia 1 3 "S1"] /\ seg_speaker turn = dia_speaker d)
         [mkSeg 1 2 "S1" "hello"; mkSeg 5 6 "UNKNOWN" "bye"].
Proof.
  apply (turns_speakers_from_input
           [mkTrans 0 2 "hello"; mkTrans 5 6 "bye"] [mkDia 1 3 "S1"] (1#2)).
  reflexivity.
Defined.

(** The merge keeps the chronological order: when the starts of the
    segments do not decrease, neither do the starts of the turns. *)
Theorem merge_chronological (l : list Segment) :
  Sorted starts_le l -> Sorted starts_le (merge l).
Proof.
  intros Hsort. apply Sorted_StronglySorted in Hsort.
  2:{ intros a b c. unfold starts_le. apply Qle_trans. }
  apply StronglySorted_Sorted. rewrite merge_spec_merge.
  destruct l as [|s rest]; [constructor|]. cbn [spec_merge].
  revert s Hsort. induction rest as [|x rest IH]; intros s Hsort.
  - repeat constructor.
  - apply StronglySorted_inv in Hsort as [Hsort Hle].
    inversion Hle as [|? ? Hsx Hsrest]; subst.
    cbn [spec_merge_from]. destruct (String.eqb _ _).
    + apply IH. apply StronglySorted_inv in Hsort as [Hsort _].
      constructor; [exact Hsort|].
      eapply Forall_impl; [exact Hsrest|]. intros y Hy. exact Hy.
    + constructor; [now apply IH|].
      apply spec_merge_from_Forall.
      * intros a b Ha. exact Ha.
      * exact Hsx.
      * exact Hsrest.
Qed.

Lemma merge_chronological_witness :
  Sorted starts_le (merge [mkSeg 0 1 "S1" "a"; mkSeg 1 2 "S1" "b"; mkSeg 2 3 "S2" "c"]).
Proof.
  apply (merge_chronological [mkSeg 0 1 "S1" "a"; mkSeg 1 2 "S1" "b"; mkSeg 2 3 "S2" "c"]).
  repeat constructor; unfold starts_le, Qle; simpl; lia.
Defined.

(** The call returns no turn exactly when every transcription segment is
    dropped, that is, has a diarization segment within the tolerance and
    truly overlaps none of the segments within the tolerance; this includes
    the empty transcription. *)
Theorem map_returns_no_turn_iff (T : list TransSegment) (D : list DiaSegment) (tol : Q) :
  map_transcription_to_diarization T D tol = Returned []
  <-> Forall (fun t => candidates t D tol <> []
                       /\ Forall (fun d => hard_overlap t d = false)
                                 (candidates t D tol)) T.
Proof.
  unfold map_transcription_to_diarization.
  assert (Hseg : forall t, segment_output t D tol = []
                   <-> candidates t D tol <> []
                       /\ Forall (fun d => hard_overlap t d = false) (candidates t D tol)).
  { intros t. destruct (candidates t D tol) as [|c cs] eqn:E.
    - rewrite segment_output_unknown by exact E. split; [discriminate | tauto].
    - rewrite segment_output_overlaps by (rewrite E; discriminate).
      rewrite overlap_output_eq, E. split.
      + intros H. split; [discriminate|].
        apply List.map_eq_nil in H. apply List.Forall_forall. intros d Hd.
        destruct (hard_overlap t d) eqn:Hh; [|reflexivity].
        assert (Hin : In d (List.filter (hard_overlap t) (c :: cs)))
          by (apply List.filter_In; auto).
        rewrite H in Hin. destruct Hin.
      + intros [_ H]. rewrite (proj2 (filter_nil_existsb _ _)); [reflexivity|].
        apply existsb_false_In. now apply List.Forall_forall. }
  split.
  - intros H. injection H as H. apply (proj1 (merge_nil_iff _)) in H.
    rewrite unified_transcript_flat_map in H.
    apply List.Forall_forall. intros t Ht. apply Hseg.
    destruct (segment_output t D tol) as [|seg out] eqn:E; [reflexivity|].
    assert (Hin : In seg (flat_map (fun trans => segment_output trans D tol) T)).
    { apply List.in_flat_map. exists t. rewrite E. split; [exact Ht | now left]. }
    rewrite H in Hin. destruct Hin.
  - intros H. f_equal. apply merge_nil_iff.
    rewrite unified_transcript_flat_map.
    induction H as [|t T Ht _ IH]; [reflexivity|].
    cbn [flat_map]. rewrite IH. now rewrite (proj2 (Hseg t) Ht).
Qed.

(** * Further properties of the formatter *)

Lemma concat_app (sep : string) (l1 l2 : list string) :
  l1 <> [] -> l2 <> [] ->
  String.concat sep (l1 ++ l2)
  = (String.concat sep l1 ++ sep ++ String.concat sep l2)%string.
Proof.
  intros H1 H2. induction l1 as [|a l1 IH]; [contradiction|].
  destruct l1 as [|b l1].
  - destruct l2 as [|c l2]; [contradiction|]. reflexivity.
  - change (String.concat sep ((a :: b :: l1) ++ l2))
      with (a ++ sep ++ String.concat sep ((b :: l1) ++ l2))%string.
    rewrite IH by discriminate.
    change (String.concat sep (a :: b :: l1))
      with (a ++ sep ++ String.concat sep (b :: l1))%string.
    now rewrite !string_app_assoc.
Qed.

(** A transcript can be rendered in pieces: the rendering of two non-empty
    lists of turns, one after the other, is the two renderings with one
    newline between them. *)
Theorem format_combined_segments_app (turns1 turns2 : list Segment) :
  turns1 <> [] -> turns2 <> [] ->
  format_combined_segments (turns1 ++ turns2)
  = (format_combined_segments turns1 ++ newline
     ++ format_combined_segments turns2)%string.
Proof.
  intros H1 H2. unfold format_combined_segments. rewrite List.map_app.
  apply concat_app.
  - destruct turns1; [contradiction | discriminate].
  - destruct turns2; [contradiction | discriminate].
Qed.

Lemma format_combined_segments_app_witness :
  format_combined_segments ([mkSeg 0 2 "S1" "hi there"] ++ [mkSeg 2 3 "S2" "bye"])
  = (format_combined_segments [mkSeg 0 2 "S1" "hi there"] ++ newline
     ++ format_combined_segments [mkSeg 2 3 "S2" "bye"])%string.
Proof.
  apply (format_combined_segments_app [mkSeg 0 2 "S1" "hi there"] [mkSeg 2 3 "S2" "bye"]);
    discriminate.
Defined.

(** The rendering is the empty string for no turn only: every line starts
    with a bracket. *)
Theorem format_combined_segments_empty_iff (turns : list Segment) :
  format_combined_segments turns = ""%string <-> turns = [].
Proof.
  split; [|now intros ->].
  destruct turns as [|t turns]; [reflexivity|].
  unfold format_combined_segments. cbn [List.map String.concat].
  destruct (List.map format_segment turns); discriminate.
Qed.

(** * Properties of [get_files] *)

Lemma files_loop_Forall2 (items : list value) (acc entries : list FileEntry) :
  Forall2 (fun hit e => hit_entry hit = Val e) items entries ->
  files_loop items acc = Val (acc ++ entries).
Proof.
  intros H. revert acc. induction H as [|hit e items entries Hhit _ IH]; intros acc.
  - simpl. now rewrite app_nil_r.
  - cbn [files_loop]. rewrite Hhit. cbn [py_bind]. rewrite IH.
    now rewrite <- app_assoc.
Qed.

Lemma files_loop_Val (items : list value) (acc out : list FileEntry) :
  files_loop items acc = Val out ->
  exists entries, out = acc ++ entries
    /\ Forall2 (fun hit e => hit_entry hit = Val e) items entries.
Proof.
  revert acc. induction items as [|hit items IH]; intros acc H.
  - injection H as <-. exists []. split; [now rewrite app_nil_r | constructor].
  - cbn [files_loop] in H. destruct (hit_entry hit) as [e|x] eqn:Hhit; [|discriminate].
    cbn [py_bind] in H. apply IH in H as (entries & -> & Hall).
    exists (e :: entries). split; [now rewrite <- app_assoc | now constructor].
Qed.

Lemma hit_entry_Val (hit : value) (e : FileEntry) :
  hit_entry hit = Val e
  <-> exists file_data, subscript hit "_source" = Val file_data
        /\ subscript file_data "filename" = Val (fe_filename e)
        /\ subscript file_data "file_id" = Val (fe_file_id e).
Proof.
  unfold hit_entry. split.
  - destruct (subscript hit "_source") as [fd|] eqn:H1; [|discriminate].
    cbn [py_bind].
    destruct (subscript fd "filename") as [fn|] eqn:H2; [|discriminate].
    destruct (subscript fd "file_id") as [fi|] eqn:H3; [|discriminate].
    cbn [py_bind]. intros H. injection H as <-. exists fd. auto.
  - intros (fd & -> & H2 & H3). cbn [py_bind]. rewrite H2, H3.
    cbn [py_bind]. now destruct e.
Qed.

(** When the response reports a positive total and every hit has a source
    with a filename and a file id, [get_files] returns one entry per hit of
    the response, in the order of the hits: the length of the answer is the
    number of hits in the response, whatever the total says. *)
Theorem get_files_lists_every_hit (es_search : string -> py_result value)
    (ws : string) (response hits total v : value) (items : list value)
    (entries : list FileEntry) :
  es_search ws = Val response ->
  subscript response "hits" = Val hits ->
  subscript hits "total" = Val total ->
  subscript total "value" = Val v ->
  gt_zero v = Val true ->
  subscript hits "hits" = Val (VList items) ->
  Forall2 (fun hit e => exists file_data,
             subscript hit "_source" = Val file_data
             /\ subscript file_data "filename" = Val (fe_filename e)
             /\ subscript file_data "file_id" = Val (fe_file_id e)) items entries ->
  get_files es_search ws = entries /\ length (get_files es_search ws) = length items.
Proof.
  intros Hs Hh Ht Hv Hp Hl Hall.
  assert (Hg : get_files es_search ws = entries).
  { unfold get_files, get_files_try.
    rewrite Hs. cbn [py_bind]. rewrite Hh. cbn [py_bind]. rewrite Ht. cbn [py_bind].
    rewrite Hv. cbn [py_bind]. rewrite Hp. cbn [py_bind]. rewrite Hl. cbn [py_bind iterate].
    rewrite (files_loop_Forall2 items [] entries); [reflexivity|].
    eapply Forall2_impl; [exact Hall|]. intros hit e He. now apply hit_entry_Val. }
  split; [exact Hg|]. rewrite Hg. symmetry. eapply Forall2_length. exact Hall.
Qed.

Lemma get_files_lists_every_hit_witness :
  get_files
    (fun _ => Val (VDict [("hits", VDict [("total", VDict [("value", VNum 5)]);
                                         ("hits", VList [VDict [("_source",
                                            VDict [("filename", VStr "a.mp3");
                                                   ("file_id", VStr "id1")])]])])]))
    "team"
  = [mkFileEntry (VStr "a.mp3") (VStr "id1")]
  /\ length (get_files
    (fun _ => Val (VDict [("hits", VDict [("total", VDict [("value", VNum 5)]);
                                         ("hits", VList [VDict [("_source",
                                            VDict [("filename", VStr "a.mp3");
                                                   ("file_id", VStr "id1")])]])])]))
    "team") = 1%nat.
Proof.
  apply (get_files_lists_every_hit _ "team"
           (VDict [("hits", VDict [("total", VDict [("value", VNum 5)]);
                                  ("hits", VList [VDict [("_source",
                                     VDict [("filename", VStr "a.mp3");
                                            ("file_id", VStr "id1")])]])])])
           (VDict [("total", VDict [("value", VNum 5)]);
                   ("hits", VList [VDict [("_source",
                      VDict [("filename", VStr "a.mp3"); ("file_id", VStr "id1")])]])])
           (VDict [("value", VNum 5)]) (VNum 5)
           [VDict [("_source", VDict [("filename", VStr "a.mp3"); ("file_id", VStr "id1")])]]
           [mkFileEntry (VStr "a.mp3") (VStr "id1")]);
    try reflexivity.
  constructor; [|constructor].
  exists (VDict [("filename", VStr "a.mp3"); ("file_id", VStr "id1")]).
  repeat split.
Defined.

Lemma files_loop_Exn (items : list value) (acc : list FileEntry) :
  Exists (fun hit => exists x, hit_entry hit = Exn x) items ->
  exists x, files_loop items acc = Exn x.
Proof.
  intros H. revert acc. induction H as [hit items [x Hx]|hit items _ IH]; intros acc.
  - exists x. cbn [files_loop]. now rewrite Hx.
  - cbn [files_loop]. destruct (hit_entry hit) as [e|x]; cbn [py_bind].
    + apply IH.
    + now exists x.
Qed.

(** [get_files] answers all or nothing: when the body of the loop raises for
    one hit of the response (a hit without a source, a source without a
    filename or a file id), the answer is the empty list, and the entries of
    the other hits are lost. *)
Theorem get_files_all_or_nothing (es_search : string -> py_result value)
    (ws : string) (response hits : value) (items : list value) :
  es_search ws = Val response ->
  subscript response "hits" = Val hits ->
  subscript hits "hits" = Val (VList items) ->
  Exists (fun hit => exists x, hit_entry hit = Exn x) items ->
  get_files es_search ws = [].
Proof.
  intros Hs Hh Hl Hbad. unfold get_files, get_files_try.
  rewrite Hs. cbn [py_bind]. rewrite Hh. cbn [py_bind].
  destruct (subscript hits "total") as [total|]; cbn [py_bind]; [|reflexivity].
  destruct (subscript total "value") as [v|]; cbn [py_bind]; [|reflexivity].
  destruct (gt_zero v) as [[|]|]; cbn [py_bind]; try reflexivity.
  rewrite Hl. cbn [py_bind iterate].
  destruct (files_loop_Exn items [] Hbad) as [x ->]. reflexivity.
Qed.

Lemma get_files_all_or_nothing_witness :
  get_files
    (fun _ => Val (VDict [("hits", VDict [("total", VDict [("value", VNum 2)]);
                                         ("hits", VList [VDict [("_source",
                                            VDict [("filename", VStr "a.mp3");
                                                   ("file_id", VStr "id1")])];
                                                         VDict [("_source",
                                            VDict [("filename", VStr "b.mp3")])]])])]))
    "team"
  = [].
Proof.
  apply (get_files_all_or_nothing _ "team"
           (VDict [("hits", VDict [("total", VDict [("value", VNum 2)]);
                                  ("hits", VList [VDict [("_source",
                                     VDict [("filename", VStr "a.mp3");
                                            ("file_id", VStr "id1")])];
                                                  VDict [("_source",
                                     VDict [("filename", VStr "b.mp3")])]])])])
           (VDict [("total", VDict [("value", VNum 2)]);
                   ("hits", VList [VDict [("_source",
                      VDict [("filename", VStr "a.mp3"); ("file_id", VStr "id1")])];
                                   VDict [("_source",
                      VDict [("filename", VStr "b.mp3")])]])])
           [VDict [("_source", VDict [("filename", VStr "a.mp3"); ("file_id", VStr "id1")])];
            VDict [("_source", VDict [("filename", VStr "b.mp3")])]]).
  - reflexivity.
  - reflexivity.
  - reflexivity.
  - apply Exists_cons_tl. apply Exists_cons_hd.
    exists (KeyError "file_id"). reflexivity.
Defined.

Lemma files_loop_strings {A : Type} (f : A -> string) (keys : list A) :
  files_loop (List.map (fun k => VStr (f k)) keys) [] = Val [] \/
  exists x, files_loop (List.map (fun k => VStr (f k)) keys) [] = Exn x.
Proof.
  destruct keys as [|k keys]; [now left|]. right. exists TypeError. reflexivity.
Qed.

(** [get_files] answers the empty list unless the search succeeded with a
    well-formed response: a non-empty answer means
    that the response has a total [> 0] and a list of hits, each with a
    source that has a filename and a file id, and the answer lists them all
    in order.  A failed search, a total that is zero, negative or not a
    number, and a malformed response all give the empty list. *)
Theorem get_files_nonempty_inv (es_search : string -> py_result value) (ws : string) :
  get_files es_search ws <> [] ->
  exists response hits total v items,
    es_search ws = Val response
    /\ subscript response "hits" = Val hits
    /\ subscript hits "total" = Val total
    /\ subscript total "value" = Val v
    /\ gt_zero v = Val true
    /\ subscript hits "hits" = Val (VList items)
    /\ Forall2 (fun hit e => exists file_data,
                  subscript hit "_source" = Val file_data
                  /\ subscript file_data "filename" = Val (fe_filename e)
                  /\ subscript file_data "file_id" = Val (fe_file_id e))
               items (get_files es_search ws).
Proof.
  unfold get_files, get_files_try. intros H.
  destruct (es_search ws) as [response|]; cbn [py_bind] in *; [|contradiction].
  destruct (subscript response "hits") as [hits|] eqn:Hh; cbn [py_bind] in *;
    [|contradiction].
  destruct (subscript hits "total") as [total|] eqn:Ht; cbn [py_bind] in *;
    [|contradiction].
  destruct (subscript total "value") as [v|] eqn:Hv; cbn [py_bind] in *;
    [|contradiction].
  destruct (gt_zero v) as [[|]|] eqn:Hp; cbn [py_bind] in *; try contradiction.
  destruct (subscript hits "hits") as [hit_list|] eqn:Hl; cbn [py_bind] in *;
    [|contradiction].
  destruct hit_list as [| | | s |items|entries]; cbn [iterate py_bind] in *;
    try contradiction.
  - exfalso. destruct (files_loop_strings (fun c => String c "") (list_ascii_of_string s))
      as [E|[x E]].
    + rewrite E in H. now apply H.
    + rewrite E in H. now apply H.
  - exists response, hits, total, v, items. repeat split; try assumption; try reflexivity.
    destruct (files_loop items []) as [out|] eqn:E; [|contradiction].
    apply files_loop_Val in E as (es & -> & Hall). simpl.
    eapply Forall2_impl; [exact Hall|]. intros hit e He. now apply hit_entry_Val.
  - exfalso. destruct (files_loop_strings (fun kv : string * value => fst kv) entries)
      as [E|[x E]].
    + rewrite E in H. now apply H.
    + rewrite E in H. now apply H.
Qed.

Lemma get_files_nonempty_inv_witness :
  exists response hits total v items,
    Val (VDict [("hits", VDict [("total", VDict [("value", VBool true)]);
                               ("hits", VList [VDict [("_source",
                                  VDict [("filename", VStr "a.mp3");
                                         ("file_id", VNum 7)])]])])])
    = Val response
    /\ subscript response "hits" = Val hits
    /\ subscript hits "total" = Val total
    /\ subscript total "value" = Val v
    /\ gt_zero v = Val true
    /\ subscript hits "hits" = Val (VList items)
    /\ Forall2 (fun hit e => exists file_data,
                  subscript hit "_source" = Val file_data
                  /\ subscript file_data "filename" = Val (fe_filename e)
                  /\ subscript file_data "file_id" = Val (fe_file_id e))
               items [mkFileEntry (VStr "a.mp3") (VNum 7)].
Proof.
  apply (get_files_nonempty_inv
           (fun _ => Val (VDict [("hits", VDict [("total", VDict [("value", VBool true)]);
                               ("hits", VList [VDict [("_source",
                                  VDict [("filename", VStr "a.mp3");
                                         ("file_id", VNum 7)])]])])])) "team").
  vm_compute. discriminate.
Defined.

(** * Properties of [process_file] *)

Lemma stores_app (tr1 tr2 : list event) : stores (tr1 ++ tr2) = stores tr1 ++ stores tr2.
Proof. apply flat_map_app. Qed.

Lemma tasks_app (tr1 tr2 : list event) : tasks (tr1 ++ tr2) = tasks tr1 ++ tasks tr2.
Proof. apply flat_map_app. Qed.

Lemma pdf_not_media (ext : string) :
  ext = ".pdf"%string ->
  existsb (String.eqb ext) valid_audio_video_extensions = false.
Proof. now intros ->. Qed.

(** An iteration that ends: [media_results] is bound, the file is stored
    with it, the mail is scheduled and the result appended. *)
Lemma process_step_Val (sv : Services) (body : AudioVideoFileRequest)
    (st st' : LoopState) (f : UploadFile) (tr : list event) :
  process_step sv body st f = (tr, Val st') ->
  exists mr file_id ev,
    tr = ls_trace st'
    /\ ls_media_results st' = Some mr
    /\ ls_results st' = ls_results st ++ [result_of f mr file_id]
    /\ ls_trace st' = ls_trace st ++ ev
         ++ [EStore (store_call_of body f mr); ETask (mail_task_of body mr file_id)]
    /\ stores ev = [] /\ tasks ev = []
    /\ (splitext_lower sv (filename f) = ".pdf"%string -> ls_media_results st = Some mr).
Proof.
  unfold process_step, extension_branch.
  destruct (existsb _ valid_audio_video_extensions) eqn:Emedia.
  - destruct (process_audio_video_files sv (ls_trace st) f) as [mr|x]; cbn [py_bind];
      [|discriminate].
    destruct (store_in_elastic sv _ _) as [file_id|x]; [|discriminate].
    intros H. injection H as <- <-.
    exists mr, file_id, [EProcess f]. cbn [ls_trace ls_media_results ls_results].
    rewrite <- !app_assoc. repeat split.
    intros Hpdf. apply pdf_not_media in Hpdf. congruence.
  - destruct (String.eqb _ ".pdf"); [|discriminate].
    destruct (ls_media_results st) as [mr|]; [|discriminate].
    destruct (store_in_elastic sv _ _) as [file_id|x]; [|discriminate].
    intros H. injection H as <- <-.
    exists mr, file_id, []. cbn [ls_trace ls_media_results ls_results].
    repeat split.
Qed.

(** An iteration that raises: no mail is scheduled, and at most the call of
    [store_in_elastic] for this file was made. *)
Lemma process_step_Exn (sv : Services) (body : AudioVideoFileRequest)
    (st : LoopState) (f : UploadFile) (tr : list event) (e : pyexn) :
  process_step sv body st f = (tr, Exn e) ->
  exists ev, tr = ls_trace st ++ ev /\ tasks ev = []
    /\ (stores ev = [] \/ exists mr, stores ev = [store_call_of body f mr]).
Proof.
  unfold process_step, extension_branch.
  destruct (existsb _ valid_audio_video_extensions).
  - destruct (process_audio_video_files sv (ls_trace st) f) as [mr|x]; cbn [py_bind].
    + destruct (store_in_elastic sv _ _) as [file_id|x]; [discriminate|].
      intros H. injection H as <- <-.
      exists [EProcess f; EStore (store_call_of body f mr)].
      rewrite <- app_assoc. repeat split. right. now exists mr.
    + intros H. injection H as <- <-. exists [EProcess f]. repeat split. now left.
  - destruct (String.eqb _ ".pdf").
    + destruct (ls_media_results st) as [mr|].
      * destruct (store_in_elastic sv _ _) as [file_id|x]; [discriminate|].
        intros H. injection H as <- <-.
        exists [EStore (store_call_of body f mr)]. repeat split. right. now exists mr.
      * intros H. injection H as <- <-. exists []. rewrite app_nil_r. repeat split. now left.
    + intros H. injection H as <- <-. exists []. rewrite app_nil_r. repeat split. now left.
Qed.

Lemma process_loop_app (sv : Services) (body : AudioVideoFileRequest)
    (l1 l2 : list UploadFile) (st : LoopState) :
  process_loop sv body (l1 ++ l2) st
  = match process_loop sv body l1 st with
    | (tr, Exn e) => (tr, Exn e)
    | (_, Val st1) => process_loop sv body l2 st1
    end.
Proof.
  revert st. induction l1 as [|f l1 IH]; intros st; [reflexivity|].
  cbn [app process_loop].
  destruct (process_step sv body st f) as [tr [st'|e]]; [apply IH | reflexivity].
Qed.

(** A loop that ends: one call of [store_in_elastic], one scheduled mail and
    one result per file, in the order of the files, each mail with the file
    id and the summary of its result. *)
Lemma process_loop_Val (sv : Services) (body : AudioVideoFileRequest)
    (files : list UploadFile) (st st' : LoopState) (tr : list event) :
  process_loop sv body files st = (tr, Val st') ->
  tr = ls_trace st'
  /\ exists calls ts rs,
       stores (ls_trace st') = stores (ls_trace st) ++ calls
       /\ tasks (ls_trace st') = tasks (ls_trace st) ++ ts
       /\ ls_results st' = ls_results st ++ rs
       /\ List.map sc_filename calls = List.map filename files
       /\ List.map pr_filename rs = List.map filename files
       /\ List.map mt_file_id ts = List.map pr_file_id rs
       /\ List.map mt_summary ts = List.map pr_summary rs.
Proof.
  revert st. induction files as [|f files IH]; intros st H.
  - injection H as <- <-. split; [reflexivity|].
    exists [], [], []. rewrite !app_nil_r. repeat split.
  - cbn [process_loop] in H.
    destruct (process_step sv body st f) as [tr1 [st1|e]] eqn:Hstep; [|discriminate].
    apply process_step_Val in Hstep
      as (mr & file_id & ev & _ & _ & Hres & Htr & Hsev & Htev & _).
    apply IH in H as (-> & calls & ts & rs & Hs & Ht & Hr & Hc & Hp & Hi & Hm).
    split; [reflexivity|].
    exists (store_call_of body f mr :: calls), (mail_task_of body mr file_id :: ts),
           (result_of f mr file_id :: rs).
    rewrite Hs, Ht, Hr, Htr, Hres, !stores_app, !tasks_app, Hsev, Htev.
    cbn [stores tasks flat_map app List.map].
    rewrite <- !app_assoc, Hc, Hp, Hi, Hm. repeat split.
Qed.

(** A loop that raises stops at one file: the files before it are stored and
    their mails scheduled, nothing is undone, and the files after it are not
    looked at. *)
Lemma process_loop_Exn (sv : Services) (body : AudioVideoFileRequest)
    (files : list UploadFile) (st : LoopState) (tr : list event) (e : pyexn) :
  process_loop sv body files st = (tr, Exn e) ->
  exists done failing rest calls ts,
    files = done ++ failing :: rest
    /\ tasks tr = tasks (ls_trace st) ++ ts
    /\ length ts = length done
    /\ stores tr = stores (ls_trace st) ++ calls
    /\ (List.map sc_filename calls = List.map filename done
        \/ List.map sc_filename calls = List.map filename (done ++ [failing])).
Proof.
  revert st. induction files as [|f files IH]; intros st H; [discriminate|].
  cbn [process_loop] in H.
  destruct (process_step sv body st f) as [tr1 [st1|x]] eqn:Hstep.
  - apply process_step_Val in Hstep
      as (mr & file_id & ev & _ & _ & _ & Htr & Hsev & Htev & _).
    apply IH in H as (done & failing & rest & calls & ts & -> & Ht & Hl & Hs & Hc).
    exists (f :: done), failing, rest, (store_call_of body f mr :: calls),
           (mail_task_of body mr file_id :: ts).
    rewrite Ht, Hs, Htr, !stores_app, !tasks_app, Hsev, Htev.
    cbn [stores tasks flat_map app List.map length].
    rewrite <- !app_assoc, Hl. repeat split.
    destruct Hc as [-> | ->]; [now left | now right].
  - injection H as <- <-.
    apply process_step_Exn in Hstep as (ev & -> & Htev & Hsev).
    destruct Hsev as [Hsev|[mr Hsev]].
    + exists [], f, files, [], []. rewrite stores_app, tasks_app, Hsev, Htev.
      repeat split. now left.
    + exists [], f, files, [store_call_of body f mr], [].
      rewrite stores_app, tasks_app, Hsev, Htev. repeat split. now right.
Qed.

Lemma process_file_Val (sv : Services) (body : AudioVideoFileRequest)
    (files : list UploadFile) (tr : list event) (res : list ProcessResult) :
  process_file sv body files = (tr, Val res) ->
  exists st', process_loop sv body files
                {| ls_media_results := None; ls_results := []; ls_trace := [] |}
              = (tr, Val st')
    /\ res = ls_results st'.
Proof.
  unfold process_file.
  destruct (process_loop sv body files _) as [tr1 [st'|e]]; [|discriminate].
  intros H. injection H as <- <-. now exists st'.
Qed.

(** When [process_file] returns, it has stored every file once and
    scheduled one mail per file, in the order of the files, and it returns
    one result per file in that order; each mail carries the file id and the
    summary of the result of its file. *)
Theorem process_file_success_shape (sv : Services) (body : AudioVideoFileRequest)
    (files : list UploadFile) (tr : list event) (res : list ProcessResult) :
  process_file sv body files = (tr, Val res) ->
  List.map pr_filename res = List.map filename files
  /\ List.map sc_filename (stores tr) = List.map filename files
  /\ List.map mt_file_id (tasks tr) = List.map pr_file_id res
  /\ List.map mt_summary (tasks tr) = List.map pr_summary res.
Proof.
  intros H. apply process_file_Val in H as (st' & H & ->).
  apply process_loop_Val in H as (-> & calls & ts & rs & Hs & Ht & Hr & Hc & Hp & Hi & Hm).
  cbn [ls_trace ls_results stores tasks flat_map app] in Hs, Ht, Hr.
  rewrite Hs, Ht, Hr. auto.
Qed.

Lemma process_file_success_shape_witness :
  List.map pr_filename
    [mkProcessResult "a.mp3" (VStr "summary of a.mp3") (VNum 1);
     mkProcessResult "b.mp4" (VStr "summary of b.mp4") (VNum 4)]
  = List.map filename [mkUpload "a.mp3"; mkUpload "b.mp4"].
Proof.
  apply (process_file_success_shape example_services example_request
           [mkUpload "a.mp3"; mkUpload "b.mp4"]
           [EProcess (mkUpload "a.mp3");
            EStore (store_call_of example_request (mkUpload "a.mp3")
                      [("transcript", VStr "transcript of a.mp3");
                       ("summary", VStr "summary of a.mp3")]);
            ETask (mkMailTask "team" (VNum 1) (VStr "summary of a.mp3"));
            EProcess (mkUpload "b.mp4");
            EStore (store_call_of example_request (mkUpload "b.mp4")
                      [("transcript", VStr "transcript of b.mp4");
                       ("summary", VStr "summary of b.mp4")]);
            ETask (mkMailTask "team" (VNum 4) (VStr "summary of b.mp4"))]).
  reflexivity.
Defined.

(** When [process_file] raises, it raises an [HTTPException] of status 500
    that wraps the exception of one file.  The files before that one stay
    stored and their mails stay scheduled (nothing is undone), no mail is
    scheduled for the failing file, and the files after it are not
    processed. *)
Theorem process_file_failure_partial (sv : Services) (body : AudioVideoFileRequest)
    (files : list UploadFile) (tr : list event) (e : pyexn) :
  process_file sv body files = (tr, Exn e) ->
  exists done failing rest x,
    files = done ++ failing :: rest
    /\ e = HTTPException 500
             ("Error storing data in Elasticsearch: " ++ str_of_exn sv x)
    /\ length (tasks tr) = length done
    /\ (List.map sc_filename (stores tr) = List.map filename done
        \/ List.map sc_filename (stores tr) = List.map filename (done ++ [failing])).
Proof.
  unfold process_file.
  destruct (process_loop sv body files _) as [tr1 [st'|x]] eqn:Hloop; [discriminate|].
  intros H. injection H as <- <-.
  apply process_loop_Exn in Hloop
    as (done & failing & rest & calls & ts & -> & Ht & Hl & Hs & Hc).
  cbn [ls_trace stores tasks flat_map app] in Hs, Ht.
  exists done, failing, rest, x. rewrite Ht, Hs. auto.
Qed.

Lemma process_file_failure_partial_witness :
  exists done failing rest x,
    [mkUpload "a.mp3"; mkUpload "b.txt"; mkUpload "c.mp3"] = done ++ failing :: rest
    /\ HTTPException 500 "Error storing data in Elasticsearch: Unsupported file type."
       = HTTPException 500
           ("Error storing data in Elasticsearch: " ++ str_of_exn example_services x)
    /\ length (tasks
         [EProcess (mkUpload "a.mp3");
          EStore (store_call_of example_request (mkUpload "a.mp3")
                    [("transcript", VStr "transcript of a.mp3");
                     ("summary", VStr "summary of a.mp3")]);
          ETask (mkMailTask "team" (VNum 1) (VStr "summary of a.mp3"))]) = length done
    /\ (List.map sc_filename (stores
         [EProcess (mkUpload "a.mp3");
          EStore (store_call_of example_request (mkUpload "a.mp3")
                    [("transcript", VStr "transcript of a.mp3");
                     ("summary", VStr "summary of a.mp3")]);
          ETask (mkMailTask "team" (VNum 1) (VStr "summary of a.mp3"))])
        = List.map filename done
        \/ List.map sc_filename (stores
         [EProcess (mkUpload "a.mp3");
          EStore (store_call_of example_request (mkUpload "a.mp3")
                    [("transcript", VStr "transcript of a.mp3");
                     ("summary", VStr "summary of a.mp3")]);
          ETask (mkMailTask "team" (VNum 1) (VStr "summary of a.mp3"))])
        = List.map filename (done ++ [failing])).
Proof.
  apply (process_file_failure_partial example_services example_request
           [mkUpload "a.mp3"; mkUpload "b.txt"; mkUpload "c.mp3"]).
  reflexivity.
Defined.

Lemma process_step_unsupported (sv : Services) (body : AudioVideoFileRequest)
    (st : LoopState) (f : UploadFile) :
  unsupported sv f ->
  process_step sv body st f
  = (ls_trace st, Exn (HTTPException 400 "Unsupported file type.")).
Proof.
  intros [Hmedia Hpdf]. unfold process_step, extension_branch.
  now rewrite Hmedia, Hpdf.
Qed.

Lemma process_loop_unsupported (sv : Services) (body : AudioVideoFileRequest)
    (files : list UploadFile) (st : LoopState) :
  Exists (unsupported sv) files ->
  exists tr x, process_loop sv body files st = (tr, Exn x).
Proof.
  intros H. revert st. induction H as [f files Hf|f files _ IH]; intros st.
  - cbn [process_loop]. rewrite (process_step_unsupported sv body st f Hf). eauto.
  - cbn [process_loop]. destruct (process_step sv body st f) as [tr [st'|x]].
    + apply IH.
    + eauto.
Qed.

(** A file whose extension is neither a media extension nor [.pdf] makes the
    whole call fail, and the client gets the status 500, not the status 400
    of the [HTTPException] raised for it: the handler of [except Exception]
    catches that exception too and wraps it.  When the file is the first of
    the list, nothing has been processed or stored. *)
Theorem process_file_unsupported_is_500 (sv : Services) (body : AudioVideoFileRequest)
    (files : list UploadFile) :
  Exists (unsupported sv) files ->
  (exists tr x, process_file sv body files
     = (tr, Exn (HTTPException 500
                   ("Error storing data in Elasticsearch: " ++ str_of_exn sv x))))
  /\ (forall f rest, files = f :: rest -> unsupported sv f ->
        process_file sv body files
        = ([], Exn (HTTPException 500
                      ("Error storing data in Elasticsearch: "
                       ++ str_of_exn sv (HTTPException 400 "Unsupported file type."))))).
Proof.
  intros H. split.
  - unfold process_file.
    destruct (process_loop_unsupported sv body files
                {| ls_media_results := None; ls_results := []; ls_trace := [] |} H)
      as (tr & x & ->).
    now exists tr, x.
  - intros f rest -> Hf. unfold process_file. cbn [process_loop].
    now rewrite (process_step_unsupported sv body _ f Hf).
Qed.

Lemma process_file_unsupported_is_500_witness :
  exists tr x,
    process_file example_services example_request [mkUpload "a.mp3"; mkUpload "notes.txt"]
    = (tr, Exn (HTTPException 500
                  ("Error storing data in Elasticsearch: "
                   ++ str_of_exn example_services x))).
Proof.
  apply (proj1 (process_file_unsupported_is_500 example_services example_request
                  [mkUpload "a.mp3"; mkUpload "notes.txt"]
                  ltac:(apply Exists_cons_tl; apply Exists_cons_hd; split; reflexivity))).
Defined.

(** A [.pdf] file at the head of the list makes the call fail with the
    status 500 before anything is processed or stored: the branch of [.pdf]
    binds nothing, and the call of [store_in_elastic] reads the local
    variable [media_results], which no media file has bound yet. *)
Theorem process_file_pdf_first (sv : Services) (body : AudioVideoFileRequest)
    (f : UploadFile) (rest : list UploadFile) :
  splitext_lower sv (filename f) = ".pdf"%string ->
  process_file sv body (f :: rest)
  = ([], Exn (HTTPException 500
                ("Error storing data in Elasticsearch: "
                 ++ str_of_exn sv (UnboundLocalError "media_results")))).
Proof.
  intros Hpdf. unfold process_file. cbn [process_loop].
  unfold process_step, extension_branch. cbn [ls_trace ls_media_results].
  now rewrite (pdf_not_media _ Hpdf), Hpdf.
Qed.

Lemma process_file_pdf_first_witness :
  process_file example_services example_request [mkUpload "minutes.pdf"; mkUpload "a.mp3"]
  = ([], Exn (HTTPException 500
                ("Error storing data in Elasticsearch: "
                 ++ str_of_exn example_services (UnboundLocalError "media_results")))).
Proof.
  apply (process_file_pdf_first example_services example_request
           (mkUpload "minutes.pdf") [mkUpload "a.mp3"]).
  reflexivity.
Defined.

(** A [.pdf] file after another file is stored with the transcript and the
    embeddings of the file before it, and its result and its mail carry the
    summary of that file: the branch of [.pdf] leaves [media_results] as the
    iteration before left it. *)
Theorem process_file_pdf_reuses_previous (sv : Services) (body : AudioVideoFileRequest)
    (pre post : list UploadFile) (g f : UploadFile)
    (tr : list event) (res : list ProcessResult) :
  process_file sv body (pre ++ g :: f :: post) = (tr, Val res) ->
  splitext_lower sv (filename f) = ".pdf"%string ->
  exists c1 c2 r1 r2,
    stores tr !! length pre = Some c1 /\ stores tr !! S (length pre) = Some c2
    /\ res !! length pre = Some r1 /\ res !! S (length pre) = Some r2
    /\ sc_filename c1 = filename g /\ sc_filename c2 = filename f
    /\ pr_filename r1 = filename g /\ pr_filename r2 = filename f
    /\ sc_transcript c2 = sc_transcript c1
    /\ sc_transcript_embeddings c2 = sc_transcript_embeddings c1
    /\ pr_summary r2 = pr_summary r1.
Proof.
  intros H Hpdf. apply process_file_Val in H as (st' & H & ->).
  rewrite process_loop_app in H.
  destruct (process_loop sv body pre _) as [tr1 [st1|x]] eqn:Hpre; [|discriminate].
  cbn [process_loop] in H.
  destruct (process_step sv body st1 g) as [tr2 [st2|x]] eqn:Hg; [|discriminate].
  destruct (process_step sv body st2 f) as [tr3 [st3|x]] eqn:Hf; [|discriminate].
  apply process_loop_Val in Hpre
    as (_ & calls1 & ts1 & rs1 & Hs1 & _ & Hr1 & Hc1 & Hp1 & _).
  cbn [ls_trace ls_results stores flat_map app] in Hs1, Hr1.
  apply process_step_Val in Hg
    as (mr & id1 & ev1 & _ & Hm2 & Hr2 & Ht2 & Hse1 & _ & _).
  apply process_step_Val in Hf
    as (mr' & id2 & ev2 & _ & _ & Hr3 & Ht3 & Hse2 & _ & Hsame).
  specialize (Hsame Hpdf). rewrite Hm2 in Hsame. injection Hsame as <-.
  apply process_loop_Val in H
    as (-> & calls3 & ts3 & rs3 & Hs3 & _ & Hr4 & _).
  assert (Hlc : length calls1 = length pre).
  { rewrite <- (length_map sc_filename), Hc1. apply length_map. }
  assert (Hlr : length rs1 = length pre).
  { rewrite <- (length_map pr_filename), Hp1. apply length_map. }
  exists (store_call_of body g mr), (store_call_of body f mr),
         (result_of g mr id1), (result_of f mr id2).
  rewrite Hs3, Ht3, Ht2, !stores_app, Hs1, Hse1, Hse2, Hr4, Hr3, Hr2, Hr1.
  cbn [stores flat_map app].
  rewrite <- !app_assoc. cbn [app].
  split; [now apply list_lookup_middle|].
  split.
  { change (S (length pre)) with (1 + length pre)%nat. rewrite Nat.add_comm.
    rewrite <- Hlc. rewrite lookup_app_r by lia.
    replace (length calls1 + 1 - length calls1)%nat with 1%nat by lia. reflexivity. }
  split; [now apply list_lookup_middle|].
  split.
  { change (S (length pre)) with (1 + length pre)%nat. rewrite Nat.add_comm.
    rewrite <- Hlr. rewrite lookup_app_r by lia.
    replace (length rs1 + 1 - length rs1)%nat with 1%nat by lia. reflexivity. }
  repeat split.
Qed.

Lemma process_file_pdf_reuses_previous_witness :
  exists c1 c2 r1 r2,
    stores (fst (process_file example_services example_request
                   [mkUpload "a.mp3"; mkUpload "b.pdf"])) !! length (@nil UploadFile) = Some c1
    /\ stores (fst (process_file example_services example_request
                   [mkUpload "a.mp3"; mkUpload "b.pdf"])) !! S (length (@nil UploadFile)) = Some c2
    /\ [mkProcessResult "a.mp3" (VStr "summary of a.mp3") (VNum 1);
        mkProcessResult "b.pdf" (VStr "summary of a.mp3") (VNum 3)]
         !! length (@nil UploadFile) = Some r1
    /\ [mkProcessResult "a.mp3" (VStr "summary of a.mp3") (VNum 1);
        mkProcessResult "b.pdf" (VStr "summary of a.mp3") (VNum 3)]
         !! S (length (@nil UploadFile)) = Some r2
    /\ sc_filename c1 = filename (mkUpload "a.mp3")
    /\ sc_filename c2 = filename (mkUpload "b.pdf")
    /\ pr_filename r1 = filename (mkUpload "a.mp3")
    /\ pr_filename r2 = filename (mkUpload "b.pdf")
    /\ sc_transcript c2 = sc_transcript c1
    /\ sc_transcript_embeddings c2 = sc_transcript_embeddings c1
    /\ pr_summary r2 = pr_summary r1.
Proof.
  apply (process_file_pdf_reuses_previous example_services example_request
           [] [] (mkUpload "a.mp3") (mkUpload "b.pdf")).
  - reflexivity.
  - reflexivity.
Defined.
